(** * The charm store request router: path splitting, handler keys and
      batched metadata retrieval ([internal/router/router.go]).

    The development follows the Go source function by function.  Go
    strings are byte strings and are modelled by [string] (a list of 8-bit
    [ascii]); Go [int] indices are modelled by [Z].  Every index the
    router computes lies between [-1] and the length of a string, so no
    arithmetic on them can wrap around.  An indexing or slicing
    expression that Go would abort with a run-time panic evaluates to
    [None]. *)

From stdpp Require Import gmap strings list fin_maps sorting.
From Stdlib Require Import ZArith Ascii.

Open Scope Z_scope.

(** ** Go string primitives *)

Module GoString.

(** [len(s)] *)
Definition len (s : string) : Z := Z.of_nat (String.length s).

(** The bytes of [s] from position [n] on, and its first [n] bytes. *)
Fixpoint sdrop (n : nat) (s : string) : string :=
  match n, s with
  | O, _ => s
  | S n', String _ s' => sdrop n' s'
  | S _, EmptyString => EmptyString
  end.

Fixpoint stake (n : nat) (s : string) : string :=
  match n, s with
  | O, _ => EmptyString
  | S n', String c s' => String c (stake n' s')
  | S _, EmptyString => EmptyString
  end.

(** [s[i]]: panics unless [0 <= i < len(s)]. *)
Definition byte_at (s : string) (i : Z) : option ascii :=
  if bool_decide (0 ≤ i) then String.get (Z.to_nat i) s else None.

(** [s[i:]]: panics unless [0 <= i <= len(s)]. *)
Definition slice_from (s : string) (i : Z) : option string :=
  if bool_decide (0 ≤ i ≤ len s) then Some (sdrop (Z.to_nat i) s) else None.

(** [s[i:j]]: panics unless [0 <= i <= j <= len(s)]. *)
Definition slice (s : string) (i j : Z) : option string :=
  if bool_decide (0 ≤ i ≤ j ∧ j ≤ len s)
  then Some (stake (Z.to_nat (j - i)) (sdrop (Z.to_nat i) s))
  else None.

(** [strings.HasPrefix], [strings.TrimPrefix], [strings.TrimSuffix]. *)
Fixpoint HasPrefix (s prefix : string) {struct prefix} : bool :=
  match prefix, s with
  | EmptyString, _ => true
  | String _ _, EmptyString => false
  | String a prefix', String b s' => Ascii.eqb a b && HasPrefix s' prefix'
  end.

Definition TrimPrefix (s prefix : string) : string :=
  if HasPrefix s prefix then sdrop (String.length prefix) s else s.

Definition HasSuffix (s suffix : string) : bool :=
  bool_decide (String.length suffix ≤ String.length s)%nat &&
  String.eqb (sdrop (String.length s - String.length suffix) s) suffix.

Definition TrimSuffix (s suffix : string) : string :=
  if HasSuffix s suffix
  then stake (String.length s - String.length suffix) s
  else s.

(** [strings.Index(s, substr)]: the position of the first occurrence of
    [substr] in [s], or [-1]. *)
Fixpoint index_nat (s substr : string) : option nat :=
  if HasPrefix s substr then Some O
  else match s with
       | EmptyString => None
       | String _ s' => S <$> index_nat s' substr
       end.

Definition Index (s substr : string) : Z :=
  match index_nat s substr with
  | Some n => Z.of_nat n
  | None => -1
  end.

(** [strings.Contains]. *)
Definition Contains (s substr : string) : bool :=
  bool_decide (0 ≤ Index s substr).

(** The bytes that [strconv.Quote] copies as they are: printable ASCII
    but the double quote and the backslash. *)
Definition plain_byte (c : ascii) : bool :=
  let n := nat_of_ascii c in
  (32 <=? n)%nat && (n <=? 126)%nat && negb (n =? 34)%nat && negb (n =? 92)%nat.

Fixpoint plain (s : string) : bool :=
  match s with
  | EmptyString => true
  | String c s' => plain_byte c && plain s'
  end.

(** A string between double quotes. *)
Definition quoted (s : string) : string :=
  String "034" (s +:+ String "034" EmptyString).

(** The byte ['/'] does not occur in [s]. *)
Fixpoint no_slash (s : string) : bool :=
  match s with
  | EmptyString => true
  | String c s' => negb (Ascii.eqb c "/") && no_slash s'
  end.

End GoString.

Import GoString.

(** ** Path splitting *)

(** [splitPath] returns the first path element after [path[i:]] and the
    start of the next element. *)
Definition splitPath (path : string) (i : Z) : option (string * Z) :=
  i ← (if bool_decide (i < len path)
       then c ← byte_at path i;
            Some (if Ascii.eqb c "/" then i + 1 else i)
       else Some i);
  rest ← slice_from path i;
  let j := Index rest "/" in
  if bool_decide (j = -1) then Some (rest, len path)
  else
    let j := j + i in
    elem ← slice path i j;
    Some (elem, j).

(** [handlerKey] returns a key that can be used to look up a handler at
    the given path, and the remaining path elements.  If there is no
    possible key, the returned key is empty. *)
Definition handlerKey (path : string) : option (string * string) :=
  let path := TrimPrefix path "/" in
  '(key, i) ← splitPath path 0;
  if bool_decide (key = "") then Some ("", "")
  else if bool_decide (i < len path - 1) then
    k ← slice path 0 (i + 1);
    rest ← slice_from path i;
    Some (k, rest)
  else Some (key, "").

(** Where [splitPath] starts to read an element: after the ["/"] at
    [path[i]], if there is one. *)
Definition element_start (path : string) (i : Z) : Z :=
  if bool_decide (byte_at path i = Some "/"%char) then i + 1 else i.

(** The identifier part of a path as [splitId] reads it: an optional
    [~user] and an optional series, each followed by ["/"], and the
    name. *)
Definition id_string (user series : option string) (name : string) : string :=
  from_option (λ u, "~" +:+ u +:+ "/") EmptyString user +:+
  from_option (λ s, s +:+ "/") EmptyString series +:+ name.

(** ** Values, requests and errors *)

(** [reflect.Kind]. *)
Module reflect.

Inductive Kind :=
  | Invalid | Bool | Int | Int8 | Int16 | Int32 | Int64
  | Uint | Uint8 | Uint16 | Uint32 | Uint64 | Uintptr
  | Float32 | Float64 | Complex64 | Complex128
  | Array | Chan | Func | Interface | Map | Ptr | Slice
  | String | Struct | UnsafePointer.

End reflect.

(** [url.Values] is [map[string][]string]; [None] is the nil map.
    Indexing a nil map yields the zero value, and [delete] on it is a
    no-op. *)
Definition Values := option (gmap string (list string)).

Definition values_get (v : Values) (k : string) : list string :=
  match v with
  | Some m => default [] (m !! k)
  | None => []
  end.

Definition values_delete (v : Values) (k : string) : Values :=
  delete k <$> v.

(** [knownSeries] *)
Definition knownSeries : list string :=
  ["bundle"; "precise"; "quantal"; "raring"; "saucy"; "trusty"; "utopic"].

(** Loop bodies either go on with the next iteration or make the
    enclosing function return. *)
Inductive ctl (A R : Type) :=
  | Next (a : A)
  | Return (r : R).
Arguments Next {A R} a.
Arguments Return {A R} r.

(** [K] is the type of grouping keys ("comparable for equality"),
    [Handler] the type of [BulkIncludeHandler] values, [IdHandler]
    that of the functions of the type of that name, [Payload] the
    contents of a metadata value, [Ref] is [charm.Reference], [Err] the
    errors created outside this package and [World] whatever the
    collaborators read and write (database, network). *)
Class Types := {
  K : Type;
  K_eq :: EqDecision K;
  K_countable :: Countable K;
  Handler : Type;
  Payload : Type;
  IdHandler : Type;
  Ref : Type;
  Err : Type;
  World : Type
}.

Section Data.

Context {T : Types}.

(** A non-nil [interface{}] value as [reflect.ValueOf] sees it: its
    kind, whether [IsNil] holds of it, and its contents. *)
Record rvalue := { rv_kind : reflect.Kind; rv_nil : bool; rv_data : Payload }.

(** An [interface{}] returned by a handler; [None] is the nil
    interface. *)
Definition value := option rvalue.

(** [charm.URL]. *)
Record URL := { Reference : Ref; Series : string }.

(** Errors are compared by identity in the source ([err ==
    ErrNotFound]); the two package-level values, the two results of
    [fmt.Errorf] and the errors of collaborators are kept apart. *)
Inductive error :=
  | ErrNotFound
  | ErrDataNotFound
  | Errorf_no_ids
  | Errorf_unrecognized (include : string)
  | ErrExternal (e : Err).

(** What a function returning [(T, error)] returns. *)
Definition result (A : Type) : Type := option A * option error.

(** The part of [*http.Request] the router reads: [req.URL.Path],
    [req.Form] as [req.ParseForm()] fills it in, and the error
    [req.ParseForm()] returns. *)
Record Request := {
  URL_Path : string;
  Form : Values;
  ParseForm_err : option error
}.

(** [Handlers.Id] and [Handlers.Meta]; a registered entry may hold the
    nil function or handler. *)
Record Handlers := {
  Id : gmap string (option IdHandler);
  Meta : gmap string (option Handler)
}.

(** What [serveMeta] hands back as [interface{}]: the facet names, a
    [params.MetaAnyResponse], or a handler's own result. *)
Inductive resp :=
  | RNames (names : list string)
  | RMetaAny (id : URL) (meta : option (gmap string value))
  | RValue (v : value).

(** [Router].  [resolveURL] fills in the URL it is given (the updated
    URL is returned with the error). *)
Record Router := {
  handlers : Handlers;
  resolveURL : URL -> World -> (URL * option error) * World
}.

(** One call of a handler's [Handle] method, with what it returned. *)
Record HandleCall := {
  c_h : Handler;
  c_hs : list Handler;
  c_id : URL;
  c_paths : list string;
  c_flags : Values;
  c_ret : list value * option error
}.

(** The state a request runs in: the collaborators' world, the log of
    [Handle] calls made so far, and what [WriteJSON] has written to the
    response (status code and value). *)
Record state := {
  world : World;
  calls : list HandleCall;
  written : list (Z * option resp)
}.

Inductive outcome (A : Type) :=
  | Ret (a : A) (s : state)
  | Panic (s : state).

Definition M (A : Type) : Type := state -> outcome A.

End Data.

Arguments Ret {T A} a s.
Arguments Panic {T A} s.

(** The code outside this package that the router calls. *)
Class Collaborators {T : Types} := {
  (** The methods of [BulkIncludeHandler].  [Key] is taken as its
      documentation asks: the key of a handler is a value that is
      comparable for equality and equal to itself (not NaN), and it is
      the same at every call, so [Key] is a function into a type with a
      decidable equality.  Keys that cannot be hashed, that differ from
      themselves or that change between two calls are outside this
      description of the handlers; every statement below is about
      handlers within it. *)
  Key : Handler -> K;
  Handle :
    Handler -> list Handler -> URL -> list string -> Values -> World ->
    (list value * option error) * World;
  (** Calling an [IdHandler]; what it writes to the response is part
      of the world. *)
  IdHandle : IdHandler -> URL -> Request -> World -> option error * World;
  (** [charm.ParseReference]. *)
  ParseReference : string -> Ref * string * option error;
  (** [strconv.Quote], which [fmt]'s [%q] verb applies to a string: the
      string between double quotes, with the bytes that are not
      printable, the quote and the backslash escaped; a string of
      plain bytes is copied as it is. *)
  Quote : string -> string;
  Quote_plain : ∀ s, plain s = true → Quote s = quoted s;
  (** [err.Error()] of an external error. *)
  Err_text : Err -> string;
  (** The order in which [range] visits a map is not specified; it is
      some permutation of the entries. *)
  range_groups : list (K * list Handler) -> World -> list (K * list Handler);
  range_groups_perm : ∀ l w, range_groups l w ≡ₚ l
}.

Section Router.

Context {T : Types} {C : Collaborators}.

(** [err.Error()]. *)
Definition Error (e : error) : string :=
  match e with
  | ErrNotFound => "not found"
  | ErrDataNotFound => "metadata not found"
  | Errorf_no_ids => "no ids specified in meta request"
  | Errorf_unrecognized include =>
      "unrecognized metadata name " +:+ Quote include
  | ErrExternal e => Err_text e
  end.

#[export] Instance M_ret : MRet M := λ A a s, Ret a s.
#[export] Instance M_bind : MBind M := λ A B f m s,
  match m s with
  | Ret a s' => f a s'
  | Panic s' => Panic s'
  end.

Definition panic {A} : M A := λ s, Panic s.

Definition lift_opt {A} (o : option A) : M A :=
  match o with
  | Some a => mret a
  | None => panic
  end.

Definition call_Handle (h : Handler) (hs : list Handler) (id : URL)
    (paths : list string) (flags : Values) : M (list value * option error) :=
  λ s,
    let '(r, w) := Handle h hs id paths flags (world s) in
    Ret r {| world := w;
             calls := calls s ++ [ {| c_h := h; c_hs := hs; c_id := id;
                                      c_paths := paths; c_flags := flags;
                                      c_ret := r |} ];
             written := written s |}.

Definition call_resolveURL (r : Router) (url : URL) : M (URL * option error) :=
  λ s,
    let '(res, w) := resolveURL r url (world s) in
    Ret res {| world := w; calls := calls s; written := written s |}.

Definition call_IdHandler (h : IdHandler) (url : URL) (req : Request)
    : M (option error) :=
  λ s,
    let '(err, w) := IdHandle h url req (world s) in
    Ret err {| world := w; calls := calls s; written := written s |}.

(** [WriteJSON(w, code, val)] *)
Definition WriteJSON (code : Z) (val : option resp) : M unit :=
  λ s, Ret () {| world := world s; calls := calls s;
                 written := written s ++ [(code, val)] |}.

Definition range (groups : gmap K (list Handler)) : M (list (K * list Handler)) :=
  λ s, Ret (range_groups (map_to_list groups) (world s)) s.

(** [isNull] reports whether the given value will encode to a null
    JSON value. *)
Definition isNull (val : value) : bool :=
  match val with
  | None => true
  | Some v =>
      match rv_kind v with
      | reflect.Map | reflect.Ptr | reflect.Slice => rv_nil v
      | _ => false
      end
  end.

(** [r.handlers.Meta[key]], [None] being the nil handler. *)
Definition meta_handler (r : Router) (key : string) : option Handler :=
  mjoin (Meta (handlers r) !! key).

(** [metaNames]: [sort.Strings] orders by bytes. *)
Definition metaNames (r : Router) : list string :=
  merge_sort (λ a b, Is_true (String.leb a b))
    ((λ name, TrimSuffix name "/") <$> (map_to_list (Meta (handlers r))).*1).

(** *** GetMetadata *)

(** The first loop of [GetMetadata]. *)
Fixpoint group_includes (r : Router) (includes : list string)
    (groups : gmap K (list Handler)) (includesByGroup : gmap K (list string))
    : option (ctl (gmap K (list Handler) * gmap K (list string)) error) :=
  match includes with
  | [] => Some (Next (groups, includesByGroup))
  | include :: includes' =>
      '(includeKey, _) ← handlerKey include;
      match meta_handler r includeKey with
      | None => Some (Return (Errorf_unrecognized include))
      | Some handler =>
          let key := Key handler in
          group_includes r includes'
            (<[key := (groups !!! key) ++ [handler]]> groups)
            (<[key := (includesByGroup !!! key) ++ [include]]> includesByGroup)
      end
  end.

(** [for i, include := range groupIncludes { _, paths[i] = handlerKey(include) }] *)
Fixpoint fill_paths (paths : list string) (i : nat)
    (groupIncludes : list string) : option (list string) :=
  match groupIncludes with
  | [] => Some paths
  | include :: rest =>
      '(_, p) ← handlerKey include;
      if bool_decide (i < length paths)%nat
      then fill_paths (<[i := p]> paths) (S i) rest
      else None
  end.

(** [for i, result := range groupResults { if !isNull(result) {
    results[groupIncludes[i]] = result } }] *)
Fixpoint merge_results (groupIncludes : list string)
    (results : gmap string value) (i : nat) (groupResults : list value)
    : option (gmap string value) :=
  match groupResults with
  | [] => Some results
  | res :: rest =>
      if isNull res
      then merge_results groupIncludes results (S i) rest
      else
        include ← groupIncludes !! i;
        merge_results groupIncludes (<[include := res]> results) (S i) rest
  end.

(** The second loop of [GetMetadata], over the groups in the order
    [range] produced. *)
Fixpoint handle_groups (id : URL) (includesByGroup : gmap K (list string))
    (gs : list (K * list Handler)) (results : gmap string value)
    : M (result (gmap string value)) :=
  match gs with
  | [] => mret (Some results, None)
  | (_, g) :: gs' =>
      g0 ← lift_opt (head g);
      let groupIncludes := includesByGroup !!! Key g0 in
      paths ← lift_opt (fill_paths (replicate (length g) "") 0 groupIncludes);
      '(groupResults, err) ← call_Handle g0 g id paths None;
      match err with
      | Some e => mret (None, Some e)
      | None =>
          results' ← lift_opt (merge_results groupIncludes results 0 groupResults);
          handle_groups id includesByGroup gs' results'
      end
  end.

(** [GetMetadata] retrieves metadata for the given charm or bundle id,
    including information as specified by the includes slice. *)
Definition GetMetadata (r : Router) (id : URL) (includes : list string)
    : M (result (gmap string value)) :=
  c ← lift_opt (group_includes r includes ∅ ∅);
  match c with
  | Return e => mret (None, Some e)
  | Next (groups, includesByGroup) =>
      gs ← range groups;
      handle_groups id includesByGroup gs ∅
  end.

(** *** serveMeta *)

Definition serveMeta (r : Router) (id : URL) (req : Request)
    : M (result resp) :=
  '(key, path) ← lift_opt (handlerKey (URL_Path req));
  if bool_decide (key = "") then mret (Some (RNames (metaNames r)), None)
  else if bool_decide (key = "any") then
    '(meta, err) ← GetMetadata r id (values_get (Form req) "include");
    match err with
    | Some e => mret (None, Some e)
    | None => mret (Some (RMetaAny id meta), None)
    end
  else
    match meta_handler r key with
    | Some handler =>
        '(results, err) ← call_Handle handler [handler] id [path] (Form req);
        match err with
        | Some e => mret (None, Some e)
        | None =>
            res ← lift_opt (results !! 0%nat);
            if isNull res then mret (None, Some ErrDataNotFound)
            else mret (Some (RValue res), None)
        end
    | None => mret (None, Some ErrNotFound)
    end.

(** *** serveBulkMeta *)

Definition parseURL (urlStr : string) : result URL :=
  let '(ref, series, err) := ParseReference urlStr in
  match err with
  | Some e => (None, Some e)
  | None => (Some {| Reference := ref; Series := series |}, None)
  end.

(** The body of the loop over the ids: [Next] is reached by
    [continue] and by the end of the body, [Return] by [return]. *)
Definition bulk_body (r : Router) (req : Request) (id : string)
    (res : gmap string (option resp))
    : M (ctl (gmap string (option resp)) error) :=
  let '(url, err) := parseURL id in
  match err with
  | Some e => mret (Return e)
  | None =>
      url ← lift_opt url;
      '(url, err) ← call_resolveURL r url;
      match err with
      | Some ErrNotFound => mret (Next res)
      | Some e => mret (Return e)
      | None =>
          '(meta, err) ← serveMeta r url req;
          match err with
          | Some ErrDataNotFound => mret (Next res)
          | Some e => mret (Return e)
          | None => mret (Next (<[id := meta]> res))
          end
      end
  end.

Fixpoint bulk_loop (r : Router) (req : Request) (ids : list string)
    (res : gmap string (option resp))
    : M (result (gmap string (option resp))) :=
  match ids with
  | [] => mret (Some res, None)
  | id :: ids' =>
      c ← bulk_body r req id res;
      match c with
      | Return e => mret (None, Some e)
      | Next res' => bulk_loop r req ids' res'
      end
  end.

(** [serveBulkMeta] serves the "bulk" metadata retrieval endpoint that
    can return information on several ids at once.  [req] is the
    request after [req.ParseForm()]. *)
Definition serveBulkMeta (r : Router) (req : Request)
    : M (result (gmap string (option resp))) :=
  let ids := values_get (Form req) "id" in
  if bool_decide (length ids = 0%nat) then mret (None, Some Errorf_no_ids)
  else
    let req := {| URL_Path := URL_Path req;
                  Form := values_delete (Form req) "id";
                  ParseForm_err := ParseForm_err req |} in
    bulk_loop r req ids ∅.

(** *** serveIds *)

Definition splitId (path : string) : option (option URL * string * option error) :=
  let path := TrimPrefix path "/" in
  '(part, i) ← splitPath path 0;
  (* skip ~<username> *)
  '(part, i) ← (if HasPrefix part "~" then splitPath path i else Some (part, i));
  (* skip series *)
  '(part, i) ← (if bool_decide (part ∈ knownSeries) then splitPath path i
                else Some (part, i));
  id ← slice path 0 i;
  let urlStr := TrimSuffix id "/" in
  let '(url, err) := parseURL urlStr in
  match err with
  | Some e => Some (None, EmptyString, Some e)
  | None => rest ← slice_from path i; Some (url, rest, None)
  end.

(** [http.StatusOK] *)
Definition StatusOK : Z := 200.

(** [serveIds] serves requests that may be rooted at a charm or bundle
    id. *)
Definition serveIds (r : Router) (req : Request) : M (option error) :=
  match ParseForm_err req with
  | Some e => mret (Some e)
  | None =>
      let path := TrimSuffix (URL_Path req) "/" in
      '(url, path, err) ← lift_opt (splitId path);
      match err with
      | Some e => mret (Some e)
      | None =>
          url ← lift_opt url;
          '(url, err) ← call_resolveURL r url;
          match err with
          | Some e => mret (Some e)
          | None =>
              '(key, path) ← lift_opt (handlerKey path);
              if bool_decide (key = "") then mret (Some ErrNotFound)
              else
                let req' := {| URL_Path := path; Form := Form req;
                               ParseForm_err := ParseForm_err req |} in
                match Id (handlers r) !! key with
                | Some handler =>
                    handler ← lift_opt handler;
                    call_IdHandler handler url req'
                | None =>
                    if bool_decide (key ≠ "meta/") && bool_decide (key ≠ "meta")
                    then mret (Some ErrNotFound)
                    else
                      '(resp, err) ← serveMeta r url req';
                      match err with
                      | Some e => mret (Some e)
                      | None => _ ← WriteJSON StatusOK resp; mret None
                      end
                end
          end
      end
  end.

End Router.

(** ** Vocabulary of the specification *)

Section Vocabulary.

Context {T : Types} {C : Collaborators}.

(** The state a run ends in. *)
Definition final {A} (o : outcome A) : state :=
  match o with
  | Ret _ s => s
  | Panic s => s
  end.

(** The handler key of an include name and the sub-path that remains
    after it. *)
Definition include_key (include : string) : string :=
  match handlerKey include with
  | Some (k, _) => k
  | None => EmptyString
  end.

Definition include_path (include : string) : string :=
  match handlerKey include with
  | Some (_, p) => p
  | None => EmptyString
  end.

(** The facet handler an include name selects, and its grouping key. *)
Definition include_handler (r : Router) (include : string) : option Handler :=
  meta_handler r (include_key include).

Definition group_key (r : Router) (include : string) : option K :=
  Key <$> include_handler r include.

(** The include names of the group [k], in the order they were
    requested, and their handlers. *)
Definition group_members (r : Router) (k : K) (includes : list string)
    : list string :=
  filter (λ include, group_key r include = Some k) includes.

Definition group_handlers (r : Router) (k : K) (includes : list string)
    : list Handler :=
  omap (include_handler r) (group_members r k includes).

(** A map entry holding a slice exists once something was appended to
    it. *)
Definition nonempty {A} (l : list A) : option (list A) :=
  match l with
  | [] => None
  | _ => Some l
  end.

(** All of [includes] select a handler. *)
Definition all_registered (r : Router) (includes : list string) : Prop :=
  Forall (λ include, is_Some (include_handler r include)) includes.

(** The grouping key of the handler a call was made on. *)
Definition call_key (c : HandleCall) : K := Key (c_h c).

(** The entry [(k, g)] of the map [groups] and the entry for [k] of
    [includesByGroup] are what the grouping loop makes them. *)
Definition group_ok (r : Router) (includes : list string)
    (includesByGroup : gmap K (list string)) (kg : K * list Handler) : Prop :=
  kg.2 = group_handlers r kg.1 includes ∧
  includesByGroup !!! kg.1 = group_members r kg.1 includes ∧
  length kg.2 = length (group_members r kg.1 includes) ∧
  ∃ g0, head kg.2 = Some g0 ∧ Key g0 = kg.1.

(** The call [GetMetadata] makes for the group [k] on its first handler
    [g0], returning [ret]. *)
Definition group_call (r : Router) (id : URL) (includes : list string)
    (k : K) (g0 : Handler) (ret : list value * option error) : HandleCall :=
  {| c_h := g0;
     c_hs := group_handlers r k includes;
     c_id := id;
     c_paths := include_path <$> group_members r k includes;
     c_flags := None;
     c_ret := ret |}.

(** The call [c] is the one of the group [kg]. *)
Definition call_of_group (r : Router) (id : URL) (includes : list string)
    (c : HandleCall) (kg : K * list Handler) : Prop :=
  ∃ ret, head kg.2 = Some (c_h c) ∧ Key (c_h c) = kg.1 ∧
         c = group_call r id includes kg.1 (c_h c) ret.

(** The calls that returned without an error. *)
Definition calls_ok (new : list HandleCall) : Prop :=
  Forall (λ c, (c_ret c).2 = None) new.



(** Merging the results of the calls [new], one call after the other. *)
Fixpoint merge_calls (r : Router) (includes : list string)
    (results : gmap string value) (new : list HandleCall)
    : option (gmap string value) :=
  match new with
  | [] => Some results
  | c :: new' =>
      results' ← merge_results (group_members r (call_key c) includes)
                   results 0 (c_ret c).1;
      merge_calls r includes results' new'
  end.


(** *** The bulk endpoint, in the words of the specification

    What happens to one supplied identifier string: it is parsed and
    resolved; a resolution that fails with NotFound omits it
    ([IdNotFound]), any other failure aborts the request ([IdFailed]);
    the metadata dispatch of a resolved identifier either yields its
    entry ([IdOk]), or the metadata-not-found condition, which omits it
    ([IdNoData]), or another error, which aborts the request. *)
Inductive id_outcome :=
  | IdNotFound
  | IdNoData
  | IdFailed (e : error)
  | IdPanic
  | IdOk (meta : option resp).

Definition id_outcome_of (r : Router) (req : Request) (id : string)
    (s : state) : id_outcome * state :=
  match parseURL id with
  | (_, Some e) => (IdFailed e, s)
  | (None, None) => (IdPanic, s)
  | (Some url, None) =>
      match call_resolveURL r url s with
      | Panic s1 => (IdPanic, s1)
      | Ret (_, Some ErrNotFound) s1 => (IdNotFound, s1)
      | Ret (_, Some e) s1 => (IdFailed e, s1)
      | Ret (url', None) s1 =>
          match serveMeta r url' req s1 with
          | Panic s2 => (IdPanic, s2)
          | Ret (_, Some ErrDataNotFound) s2 => (IdNoData, s2)
          | Ret (_, Some e) s2 => (IdFailed e, s2)
          | Ret (meta, None) s2 => (IdOk meta, s2)
          end
      end
  end.

(** The request goes on with the next identifier. *)
Definition continues (o : id_outcome) : bool :=
  match o with
  | IdNotFound | IdNoData | IdOk _ => true
  | IdFailed _ | IdPanic => false
  end.

(** The outcomes of the identifiers in turn, up to the first that does
    not continue. *)
Fixpoint bulk_outcomes (r : Router) (req : Request) (ids : list string)
    (s : state) : list id_outcome :=
  match ids with
  | [] => []
  | id :: ids' =>
      let '(o, s1) := id_outcome_of r req id s in
      o :: (if continues o then bulk_outcomes r req ids' s1 else [])
  end.

(** The entries of the identifiers that were included, in the order of
    the request. *)
Definition entry_of (p : string * id_outcome) : option (string * option resp) :=
  match p.2 with
  | IdOk meta => Some (p.1, meta)
  | _ => None
  end.

Definition bulk_entries (ids : list string) (outs : list id_outcome)
    : list (string * option resp) :=
  omap entry_of (zip ids outs).

(** [result[id] = meta] *)
Definition put (res : gmap string (option resp)) (p : string * option resp)
    : gmap string (option resp) :=
  <[p.1 := p.2]> res.

(** The request as [serveBulkMeta] passes it on: [id] is deleted from
    the form. *)
Definition bulk_request (req : Request) : Request :=
  {| URL_Path := URL_Path req;
     Form := values_delete (Form req) "id";
     ParseForm_err := ParseForm_err req |}.

(** What an identifier string canonicalizes to in the state [s]: the
    URL it parses to, as [resolveURL] fills it in. *)
Definition canonical (r : Router) (id : string) (s : state) : option URL :=
  match parseURL id with
  | (Some url, None) =>
      match call_resolveURL r url s with
      | Ret (url', None) _ => Some url'
      | _ => None
      end
  | _ => None
  end.

(** *** Values and handlers as the router expects them

    A value handed back with a nil error that encodes to something: it
    is not the nil interface, a handler's own result is not
    null-equivalent, and the mapping of a [params.MetaAnyResponse] is
    not the nil map. *)
Definition non_null (v : option resp) : Prop :=
  match v with
  | Some (RNames _) => True
  | Some (RMetaAny _ meta) => is_Some meta
  | Some (RValue x) => isNull x = false
  | None => False
  end.

(** What the documentation of [BulkIncludeHandler.Handle] asks of a
    handler: called with as many paths as handlers, it returns an error
    or one result for each handler. *)
Definition one_result_each : Prop :=
  ∀ h hs id paths flags w,
    length hs = length paths →
    (Handle h hs id paths flags w).1.2 = None →
    length (Handle h hs id paths flags w).1.1 = length hs.

(** No key of [Handlers.Id] is registered with the nil function. *)
Definition no_nil_IdHandler (r : Router) : Prop :=
  ∀ key, Id (handlers r) !! key ≠ Some None.

(** The entry of [Handlers.Id] a request is dispatched to, if there is
    one: the form is parsed, the identifier is split off the path and
    parsed, the URL is resolved, and the handler key of the rest of the
    path is not empty and is a key of [Handlers.Id]. *)
Definition id_handler_of (r : Router) (req : Request) (s : state)
    : option (option IdHandler) :=
  match ParseForm_err req with
  | Some _ => None
  | None =>
      match splitId (TrimSuffix (URL_Path req) "/") with
      | Some (Some url, rest, None) =>
          match resolveURL r url (world s) with
          | ((_, None), _) =>
              match handlerKey rest with
              | Some (key, _) =>
                  if bool_decide (key = "") then None
                  else Id (handlers r) !! key
              | None => None
              end
          | _ => None
          end
      | _ => None
      end
  end.

(** The calls to [Handle] a run has added to those of the state [s]. *)
Definition new_calls {A} (s : state) (o : outcome A) : list HandleCall :=
  drop (length (calls s)) (calls (final o)).

End Vocabulary.

(** ** A small router to run the definitions on

    Handlers are named by strings; ["size"] and ["hash"] share the
    grouping key ["blob"], every other handler is a group of its own.
    The world counts the calls made to [Handle]. *)

Module Toy.

Definition toy_types : Types :=
  {| K := string; Handler := string; IdHandler := string; Payload := nat;
     Ref := string; Err := string; World := nat |}.

Definition toy_value (h : string) : @value toy_types :=
  if bool_decide (h = "size") then
    Some (@Build_rvalue toy_types reflect.Int false 42%nat)
  else if bool_decide (h = "hash") then
    Some (@Build_rvalue toy_types reflect.String false 7%nat)
  else if bool_decide (h = "ptr") then
    Some (@Build_rvalue toy_types reflect.Ptr true 0%nat)
  else None.

Definition toy_Key (h : string) : string :=
  if bool_decide (h = "size") || bool_decide (h = "hash") then "blob" else h.

Definition toy_boom : @error toy_types := @ErrExternal toy_types "boom".

Definition toy_Handle (h : string) (hs : list string) (id : @URL toy_types)
    (paths : list string) (flags : Values) (w : nat)
    : (list (@value toy_types) * option (@error toy_types)) * nat :=
  if bool_decide (h = "fail")
  then (([], Some toy_boom), S w)
  else ((toy_value <$> hs, None), S w).

Definition toy_ParseReference (s : string)
    : string * string * option (@error toy_types) :=
  if bool_decide (s = "")
  then ("", "", Some (@ErrExternal toy_types "empty"))
  else (TrimPrefix s "cs:", "", None).

Definition toy_Quote (s : string) : string := quoted s.

Definition toy_range (l : list (string * list string)) (w : nat)
    : list (string * list string) := l.

Definition toy_collaborators : @Collaborators toy_types :=
  {| Key := toy_Key : @Handler toy_types → @K toy_types;
     Handle := toy_Handle;
     IdHandle := λ _ _ _ w, (None, w);
     ParseReference := toy_ParseReference;
     Quote := toy_Quote;
     Quote_plain := λ s _, eq_refl;
     Err_text := λ e : string, e;
     range_groups := toy_range;
     range_groups_perm := λ l w, reflexivity l |}.

Definition toy_resolveURL (url : @URL toy_types) (w : nat)
    : (@URL toy_types * option (@error toy_types)) * nat :=
  if bool_decide (Reference url = "missing")
  then ((url, Some ErrNotFound), w)
  else ((@Build_URL toy_types (Reference url) "trusty", None), w).

Definition toy_router : @Router toy_types :=
  {| handlers :=
       {| Id := ∅;
          Meta := list_to_map
            [("size", Some "size"); ("hash", Some "hash");
             ("none", Some "none"); ("ptr", Some "ptr");
             ("fail", Some "fail"); ("related/", Some "related")] |};
     resolveURL := toy_resolveURL |}.

Definition toy_id : @URL toy_types :=
  @Build_URL toy_types "wordpress" "trusty".

Definition toy_state : @state toy_types :=
  @Build_state toy_types 0%nat [] [].

Definition toy_request (path : string) (form : list (string * list string))
    : @Request toy_types :=
  {| URL_Path := path; Form := Some (list_to_map form); ParseForm_err := None |}.

Definition toy_GetMetadata :=
  GetMetadata (C := toy_collaborators) toy_router toy_id.

Definition toy_serveMeta :=
  serveMeta (C := toy_collaborators) toy_router toy_id.

Definition toy_serveIds := serveIds (C := toy_collaborators) toy_router.

Definition toy_serveBulkMeta :=
  serveBulkMeta (C := toy_collaborators) toy_router.

(** A request for five facets, two of them served by one group. *)
Definition toy_includes : list string :=
  ["size"; "hash"; "none"; "ptr"; "related/provides"].


(** A bulk request for three identifiers: two that canonicalize to the
    same URL and one that does not resolve. *)
Definition toy_bulk_request : @Request toy_types :=
  toy_request "/size" [("id", ["cs:wordpress"; "missing"; "wordpress"])].

Definition toy_bulk_map : gmap string (option (@resp toy_types)) :=
  match toy_serveBulkMeta toy_bulk_request toy_state with
  | Ret (Some m, _) _ => m
  | _ => ∅
  end.

(** A bulk request in which one identifier string is sent twice. *)
Definition toy_bulk_twice : @Request toy_types :=
  toy_request "/size" [("id", ["wordpress"; "wordpress"; "missing"])].

(** The call on the handler [h] alone, as [GetMetadata] makes it. *)
Definition toy_call (h : string) (ret : list (@value toy_types) * option (@error toy_types))
    : @HandleCall toy_types :=
  @Build_HandleCall toy_types h [h] toy_id [EmptyString] None ret.

End Toy.

(** * Properties *)

(** ** Strings *)

Section StringFacts.

Implicit Types (s : string) (n m : nat).

Lemma len_nonneg s : 0 ≤ len s.
Proof. unfold len. lia. Qed.

Lemma sdrop_0 s : sdrop 0 s = s.
Proof. by destruct s. Qed.

Lemma stake_0 s : stake 0 s = EmptyString.
Proof. by destruct s. Qed.

Lemma length_sdrop n s : String.length (sdrop n s) = (String.length s - n)%nat.
Proof.
  revert s. induction n as [|n IH]; intros [|c s]; simpl; auto.
Qed.

Lemma stake_all n s : (String.length s ≤ n)%nat → stake n s = s.
Proof.
  revert s. induction n as [|n IH]; intros [|c s]; simpl; intros Hn;
    try done; try lia.
  f_equal. apply IH. lia.
Qed.

Lemma get_sdrop n m s : String.get m (sdrop n s) = String.get (n + m) s.
Proof.
  revert s. induction n as [|n IH]; intros [|c s]; simpl; auto.
Qed.

Lemma get_Some_lt n s c : String.get n s = Some c → (n < String.length s)%nat.
Proof.
  revert n. induction s as [|a s IH]; intros [|n]; simpl; try done; try lia.
  intros Hg. apply IH in Hg. lia.
Qed.

Lemma stake_sdrop_app n s : stake n s +:+ sdrop n s = s.
Proof.
  revert s. induction n as [|n IH]; intros [|c s]; simpl; try done.
  change (String c (stake n s +:+ sdrop n s) = String c s). by rewrite IH.
Qed.

Lemma get_None_ge n s : String.get n s = None → (String.length s ≤ n)%nat.
Proof.
  revert n. induction s as [|a s IH]; intros [|n]; simpl; try done; try lia.
  intros Hg. apply IH in Hg. lia.
Qed.

Lemma length_stake n s : (n ≤ String.length s)%nat → String.length (stake n s) = n.
Proof.
  revert s. induction n as [|n IH]; intros [|c s]; simpl; intros Hn;
    try done; try lia.
  rewrite IH; lia.
Qed.

Lemma HasPrefix_slash c s :
  HasPrefix (String c s) "/" = Ascii.eqb c "/".
Proof.
  change (HasPrefix (String c s) "/") with (Ascii.eqb "/" c && true).
  rewrite andb_true_r. apply Ascii.eqb_sym.
Qed.

Lemma app_cons c s1 s2 : String c s1 +:+ s2 = String c (s1 +:+ s2).
Proof. done. Qed.

Lemma no_slash_app s1 s2 :
  no_slash (s1 +:+ s2) = no_slash s1 && no_slash s2.
Proof.
  induction s1 as [|c s1 IH]; [done|].
  rewrite app_cons. simpl. by rewrite IH, andb_assoc.
Qed.

(** [strings.Index(s, "/")] is [-1] exactly when [s] has no ["/"]. *)
Lemma index_nat_slash_None s : index_nat s "/" = None ↔ no_slash s = true.
Proof.
  induction s as [|c s IH]; [done|].
  cbn [index_nat no_slash]. rewrite HasPrefix_slash.
  destruct (Ascii.eqb c "/"); simpl; [done|].
  rewrite <-IH. by destruct (index_nat s "/").
Qed.

(** Otherwise it is the position of the first ["/"]. *)
Lemma index_nat_slash_Some s n :
  index_nat s "/" = Some n →
  (n < String.length s)%nat ∧ no_slash (stake n s) = true ∧
  String.get n s = Some "/"%char.
Proof.
  revert n. induction s as [|c s IH]; intros n; [done|].
  cbn [index_nat]. rewrite HasPrefix_slash.
  destruct (Ascii.eqb_spec c "/") as [->|Hne].
  - intros [= <-]. simpl. split_and!; [lia|done|done].
  - destruct (index_nat s "/") as [k|] eqn:Hk; simpl; [|done].
    intros [= <-]. destruct (IH k eq_refl) as (Hlt & Hns & Hget).
    simpl. split_and!; [lia| |done].
    rewrite Hns, andb_true_r. by apply negb_true_iff, Ascii.eqb_neq.
Qed.

Lemma Index_slash_cases s :
  (Index s "/" = -1 ∧ no_slash s = true) ∨
  (∃ n, Index s "/" = Z.of_nat n ∧ (n < String.length s)%nat ∧
        no_slash (stake n s) = true ∧ String.get n s = Some "/"%char ∧
        no_slash s = false).
Proof.
  unfold Index. destruct (index_nat s "/") as [n|] eqn:Hn.
  - right. exists n. destruct (index_nat_slash_Some _ _ Hn) as (?&?&?).
    split_and!; try done.
    destruct (no_slash s) eqn:Hs; [|done].
    apply index_nat_slash_None in Hs. congruence.
  - left. split; [done|]. by apply index_nat_slash_None.
Qed.

Lemma len_app s1 s2 : len (s1 +:+ s2) = len s1 + len s2.
Proof.
  unfold len. induction s1 as [|c s1 IH].
  - change (EmptyString +:+ s2) with s2. simpl String.length. lia.
  - rewrite app_cons. simpl String.length. lia.
Qed.

Lemma app_empty_r s : s +:+ EmptyString = s.
Proof. induction s as [|c s IH]; [done|]. by rewrite app_cons, IH. Qed.

Lemma stake_app_length s1 s2 : stake (String.length s1) (s1 +:+ s2) = s1.
Proof.
  induction s1 as [|c s1 IH]; [apply stake_0|].
  rewrite app_cons. simpl. by rewrite IH.
Qed.

Lemma stake_app_length_S s1 c s2 :
  stake (S (String.length s1)) (s1 +:+ String c s2)
  = s1 +:+ String c EmptyString.
Proof.
  induction s1 as [|a s1 IH]; [by destruct s2|].
  rewrite !app_cons. simpl String.length.
  change (stake (S (S (String.length s1))) (String a (s1 +:+ String c s2)))
    with (String a (stake (S (String.length s1)) (s1 +:+ String c s2))).
  by rewrite IH.
Qed.

Lemma sdrop_app_length s1 s2 : sdrop (String.length s1) (s1 +:+ s2) = s2.
Proof.
  induction s1 as [|c s1 IH]; [apply sdrop_0|].
  rewrite app_cons. simpl. by rewrite IH.
Qed.

Lemma index_nat_app_slash s1 s2 :
  no_slash s1 = true →
  index_nat (s1 +:+ String "/" s2) "/" = Some (String.length s1).
Proof.
  induction s1 as [|c s1 IH]; intros Hns.
  - change (EmptyString +:+ String "/" s2) with (String "/" s2).
    cbn [index_nat]. by rewrite HasPrefix_slash.
  - rewrite app_cons. cbn [index_nat]. rewrite HasPrefix_slash.
    simpl in Hns. apply andb_true_iff in Hns as [Hc Hns].
    apply negb_true_iff in Hc. rewrite Hc, IH by done. done.
Qed.

End StringFacts.

(** ** splitPath *)

Lemma element_start_bounds path i :
  0 ≤ i ≤ len path → i ≤ element_start path i ≤ len path.
Proof.
  intros Hi. unfold element_start. case_bool_decide as Hb; [|lia].
  unfold byte_at in Hb. case_bool_decide; [|done].
  apply get_Some_lt in Hb. unfold len in *. lia.
Qed.

(** Outside [0 <= i <= len(path)] the slice expressions of [splitPath]
    panic. *)
Lemma splitPath_out_of_range path i :
  ¬ (0 ≤ i ≤ len path) → splitPath path i = None.
Proof.
  intros Hi. unfold splitPath.
  case_bool_decide as Hlt.
  - unfold byte_at. case_bool_decide; [lia|]. done.
  - simpl. unfold slice_from. case_bool_decide; [lia|]. done.
Qed.

Lemma splitPath_start path i :
  0 ≤ i ≤ len path →
  (if bool_decide (i < len path)
   then c ← byte_at path i; Some (if Ascii.eqb c "/" then i + 1 else i)
   else Some i) = Some (element_start path i).
Proof.
  intros Hi. unfold element_start, byte_at.
  rewrite (bool_decide_true (0 ≤ i)) by lia.
  destruct (String.get (Z.to_nat i) path) as [c|] eqn:Hg.
  - apply get_Some_lt in Hg.
    rewrite (bool_decide_true (i < len path)) by (unfold len; lia). simpl.
    destruct (Ascii.eqb_spec c "/") as [->|Hne].
    + by rewrite bool_decide_true.
    + rewrite bool_decide_false; [done|]. by intros [= ->].
  - apply get_None_ge in Hg.
    rewrite (bool_decide_false (i < len path)) by (unfold len; lia).
    by rewrite bool_decide_false.
Qed.

(** Inside the path [splitPath] returns, with an index between the
    start of the element and the end of the path. *)
Lemma splitPath_returns path i :
  0 ≤ i ≤ len path →
  ∃ elem next,
    splitPath path i = Some (elem, next) ∧
    element_start path i ≤ next ≤ len path.
Proof.
  intros Hi.
  pose proof (element_start_bounds path i Hi) as Hs.
  unfold splitPath. rewrite splitPath_start by done.
  set (st := element_start path i) in *. simpl.
  unfold slice_from. rewrite bool_decide_true by lia. simpl.
  destruct (Index_slash_cases (sdrop (Z.to_nat st) path))
    as [[-> _]|(n & -> & Hn & _)].
  - rewrite bool_decide_true by done. eexists _, _. split; [done|lia].
  - rewrite length_sdrop in Hn.
    rewrite bool_decide_false by lia.
    unfold slice. rewrite bool_decide_true by (unfold len; lia). simpl.
    eexists _, _. split; [done|]. unfold len. lia.
Qed.

(** C10: for a start index [i] inside the path, [splitPath] returns the
    next ["/"]-delimited element and the index where the following
    element begins.  A ["/"] at position [i] is skipped first
    ([element_start]); the element [elem] is the slice of the path from
    there to the returned index and holds no ["/"].  When the path has
    no further ["/"], [elem] is the whole remainder and the index is
    [len(path)]; otherwise the index is the position of the ["/"] that
    ends the element, from where the next call reads the following
    element. *)
Theorem splitPath_spec (path : string) (i : Z) :
  0 ≤ i ≤ len path →
  ∃ elem next rest,
    splitPath path i = Some (elem, next) ∧
    slice_from path (element_start path i) = Some rest ∧
    slice path (element_start path i) next = Some elem ∧
    no_slash elem = true ∧
    (if no_slash rest
     then elem = rest ∧ next = len path
     else next < len path ∧ byte_at path next = Some "/"%char).
Proof.
  intros Hi.
  pose proof (element_start_bounds path i Hi) as Hs.
  unfold splitPath. rewrite splitPath_start by done.
  set (st := element_start path i) in *. simpl.
  unfold slice_from. rewrite bool_decide_true by lia. simpl.
  set (rest := sdrop (Z.to_nat st) path).
  assert (String.length rest = Z.to_nat (len path - st)) as Hlen.
  { unfold rest. rewrite length_sdrop. unfold len. lia. }
  destruct (Index_slash_cases rest) as [[Hj Hns]|(n & Hj & Hn & Hns & Hget & Hrest)];
    rewrite Hj.
  - rewrite bool_decide_true by done.
    exists rest, (len path), rest. rewrite Hns. split_and!; try done.
    unfold slice. rewrite bool_decide_true by lia.
    f_equal. apply stake_all. fold rest. lia.
  - rewrite bool_decide_false by lia.
    unfold slice. rewrite bool_decide_true by lia. simpl.
    replace (Z.to_nat (Z.of_nat n + st - st)) with n by lia. fold rest.
    exists (stake n rest), (Z.of_nat n + st), rest. rewrite Hrest.
    split_and!; try done; [|lia|].
    { rewrite bool_decide_true by lia.
      by replace (Z.to_nat (Z.of_nat n + st - st)) with n by lia. }
    unfold byte_at. rewrite bool_decide_true by lia.
    unfold rest in Hget. rewrite get_sdrop in Hget.
    by replace (Z.to_nat (Z.of_nat n + st)) with (Z.to_nat st + n)%nat by lia.
Qed.

(** ** handlerKey *)

(** [handlerKey] never panics. *)
Lemma handlerKey_total path : ∃ key rest, handlerKey path = Some (key, rest).
Proof.
  unfold handlerKey. set (p := TrimPrefix path "/").
  pose proof (len_nonneg p) as Hp.
  destruct (splitPath_returns p 0) as (elem & next & -> & Hnext); [lia|].
  pose proof (element_start_bounds p 0) as Hst.
  simpl. case_bool_decide; [by eauto|].
  case_bool_decide as Hlt; [|by eauto].
  unfold slice, slice_from.
  rewrite !bool_decide_true by lia. simpl. eauto.
Qed.

Lemma handlerKey_include include :
  handlerKey include = Some (include_key include, include_path include).
Proof.
  unfold include_key, include_path.
  by destruct (handlerKey_total include) as (k & p & ->).
Qed.

(** A path without elements has the empty key. *)
Lemma handlerKey_no_element path :
  TrimPrefix path "/" = EmptyString →
  handlerKey path = Some (EmptyString, EmptyString).
Proof. intros Hp. unfold handlerKey. by rewrite Hp. Qed.

(** X4: on a path whose first element [elem] directly follows the one
    leading ["/"] that is trimmed, the key is [elem], with a trailing
    ["/"] exactly when something follows the ["/"] after it, and then
    the rest is what follows [elem]. *)
Lemma handlerKey_first_element path elem rest :
  TrimPrefix path "/" = elem +:+ rest →
  elem ≠ EmptyString → no_slash elem = true →
  (rest = EmptyString ∨ ∃ r, rest = String "/" r) →
  handlerKey path =
    Some (if bool_decide (2 ≤ len rest)
          then (elem +:+ "/", rest) else (elem, EmptyString)).
Proof.
  intros Hp Hne Hns Hrest. unfold handlerKey.
  destruct elem as [|c e]; [done|].
  assert (Ascii.eqb c "/" = false) as Hc.
  { simpl in Hns. apply andb_true_iff in Hns as [Hc _].
    by apply negb_true_iff in Hc. }
  assert (0 < len (String c e)) as Hpos by (unfold len; simpl; lia).
  destruct Hrest as [->|[r ->]].
  - rewrite app_empty_r in Hp. rewrite Hp.
    unfold splitPath. rewrite bool_decide_true by lia.
    change (byte_at (String c e) 0) with (Some c). simpl. rewrite Hc.
    unfold slice_from. rewrite bool_decide_true by lia.
    change (sdrop (Z.to_nat 0) (String c e)) with (String c e). simpl.
    unfold Index. rewrite (proj2 (index_nat_slash_None (String c e))) by done.
    rewrite bool_decide_true by done. simpl.
    by rewrite bool_decide_false by lia.
  - rewrite Hp. set (p := String c e +:+ String "/" r).
    assert (len (String "/" r) = 1 + len r) as Hr1
      by (unfold len; simpl String.length; lia).
    pose proof (len_nonneg r) as Hr0.
    assert (len p = len (String c e) + len (String "/" r)) as Hlen
      by apply len_app.
    unfold splitPath. rewrite bool_decide_true by lia.
    change (byte_at p 0) with (Some c). simpl. rewrite Hc.
    unfold slice_from. rewrite bool_decide_true by lia.
    change (sdrop (Z.to_nat 0) p) with p. simpl.
    assert (Index p "/" = len (String c e)) as HI.
    { unfold Index, p. by rewrite index_nat_app_slash. }
    rewrite HI, Z.add_0_r. rewrite bool_decide_false by lia.
    assert (slice p 0 (len (String c e)) = Some (String c e)) as ->.
    { unfold slice. rewrite bool_decide_true by lia. f_equal.
      replace (Z.to_nat (len (String c e) - 0))
        with (String.length (String c e)) by (unfold len; lia).
      apply stake_app_length. }
    simpl.
    destruct (decide (2 ≤ len (String "/" r))) as [Hge|Hlt].
    + rewrite !bool_decide_true by lia.
      assert (slice p 0 (len (String c e) + 1)
              = Some (String c e +:+ "/")) as ->.
      { unfold slice. rewrite bool_decide_true by lia. f_equal.
        replace (Z.to_nat (len (String c e) + 1 - 0))
          with (S (String.length (String c e))) by (unfold len; lia).
        apply stake_app_length_S. }
      simpl. do 2 f_equal.
      replace (Z.to_nat (len (String c e))) with (String.length (String c e))
        by (unfold len; lia).
      apply sdrop_app_length.
    + by rewrite !bool_decide_false by lia.
Qed.

(** C9: on a path that starts with two slashes and has more than one
    element, the key [handlerKey] returns keeps a leading ["/"]: it is
    not the first element followed by ["/"].  When nothing follows the
    first element the leading ["/"] is dropped. *)
Theorem handlerKey_leading_slashes :
  handlerKey "//foo/bar" = Some ("/foo/", "/bar") ∧
  handlerKey "//foo" = Some ("foo", EmptyString) ∧
  handlerKey "/foo/bar" = Some ("foo/", "/bar").
Proof. by vm_compute. Qed.

(** ** The metadata batching engine *)

Section RouterFacts.

Context {T : Types} {C : Collaborators}.

Implicit Types (r : Router) (k : K) (includes : list string).

Lemma meta_handler_include r include :
  meta_handler r (include_key include) = include_handler r include.
Proof. done. Qed.

Lemma group_members_app r k l1 l2 :
  group_members r k (l1 ++ l2) = group_members r k l1 ++ group_members r k l2.
Proof. apply filter_app. Qed.

Lemma group_handlers_app r k l1 l2 :
  group_handlers r k (l1 ++ l2) = group_handlers r k l1 ++ group_handlers r k l2.
Proof. unfold group_handlers. by rewrite group_members_app, omap_app. Qed.

Lemma group_members_cons_eq r k include h :
  include_handler r include = Some h → Key h = k →
  group_members r k [include] = [include] ∧ group_handlers r k [include] = [h].
Proof.
  intros Hh Hk. unfold group_handlers, group_members.
  rewrite filter_cons_True; [|unfold group_key; rewrite Hh; simpl; by f_equal].
  rewrite filter_nil. simpl. by rewrite Hh.
Qed.

Lemma group_members_cons_ne r k include h :
  include_handler r include = Some h → Key h ≠ k →
  group_members r k [include] = [] ∧ group_handlers r k [include] = [].
Proof.
  intros Hh Hk. unfold group_handlers, group_members.
  rewrite filter_cons_False; [done|].
  unfold group_key. rewrite Hh. simpl. by intros [= ?].
Qed.

Lemma lookup_total_nonempty {A} (m : gmap K (list A)) k l :
  m !! k = nonempty l → m !!! k = l.
Proof.
  intros Hm. rewrite lookup_total_alt, Hm. by destruct l.
Qed.

Lemma nonempty_snoc {A} (l : list A) x : nonempty (l ++ [x]) = Some (l ++ [x]).
Proof. by destruct l. Qed.

(** The grouping loop: the maps it builds hold, for every grouping key,
    the handlers and the include names of that group in request order;
    it returns early at the first include name without a handler. *)
Lemma group_includes_spec r rest :
  ∀ seen (groups : gmap K (list Handler)) (ibg : gmap K (list string)),
    (∀ k, groups !! k = nonempty (group_handlers r k seen) ∧
          ibg !! k = nonempty (group_members r k seen)) →
    match group_includes r rest groups ibg with
    | Some (Next (groups', ibg')) =>
        all_registered r rest ∧
        ∀ k, groups' !! k = nonempty (group_handlers r k (seen ++ rest)) ∧
             ibg' !! k = nonempty (group_members r k (seen ++ rest))
    | Some (Return e) =>
        ∃ before include after,
          rest = before ++ include :: after ∧ all_registered r before ∧
          include_handler r include = None ∧ e = Errorf_unrecognized include
    | None => False
    end.
Proof.
  induction rest as [|include rest IH]; intros seen groups ibg Hinv.
  - simpl. rewrite app_nil_r. split; [constructor|done].
  - cbn [group_includes]. rewrite handlerKey_include. simpl.
    rewrite meta_handler_include.
    destruct (include_handler r include) as [h|] eqn:Hh.
    + specialize (IH (seen ++ [include])
        (<[Key h := groups !!! Key h ++ [h]]> groups)
        (<[Key h := ibg !!! Key h ++ [include]]> ibg)).
      rewrite <-(assoc_L (++)) in IH. simpl in IH.
      match type of IH with ?P → _ => assert P as HP end.
      { intros k. rewrite group_handlers_app, group_members_app.
        destruct (Hinv k) as [Hg Hi].
        destruct (decide (Key h = k)) as [<-|Hne].
        - destruct (group_members_cons_eq r (Key h) include h Hh eq_refl) as [-> ->].
          rewrite !lookup_insert_eq, !nonempty_snoc.
          by rewrite (lookup_total_nonempty _ _ _ Hg),
            (lookup_total_nonempty _ _ _ Hi).
        - destruct (group_members_cons_ne r k include h Hh Hne) as [-> ->].
          rewrite !lookup_insert_ne by done. by rewrite !app_nil_r. }
      specialize (IH HP).
      destruct (group_includes r rest _ _) as [[[g' i']|e]|]; [| |done].
      * destruct IH as [Hreg Hall]. split; [|done].
        constructor; [by rewrite Hh|done].
      * destruct IH as (before & inc & after & -> & Hb & Hn & ->).
        exists (include :: before), inc, after. split_and!; try done.
        constructor; [by rewrite Hh|done].
    + exists [], include, rest. split_and!; try done. constructor.
Qed.

Lemma fill_paths_spec (incs : list string) :
  ∀ (paths : list string) (i : nat),
    (i + length incs ≤ length paths)%nat →
    fill_paths paths i incs =
      Some (take i paths ++ (include_path <$> incs) ++
            drop (i + length incs) paths).
Proof.
  induction incs as [|inc incs IH]; intros paths i Hlen; simpl in *.
  - by rewrite Nat.add_0_r, take_drop.
  - rewrite handlerKey_include. simpl.
    rewrite bool_decide_true by lia.
    rewrite IH by (rewrite length_insert; lia). f_equal.
    rewrite (take_S_r _ _ (include_path inc))
      by (apply list_lookup_insert_eq; lia).
    rewrite take_insert_ge by lia.
    rewrite drop_insert_lt by lia.
    rewrite <-(assoc_L (++)). simpl.
    by replace (i + S (length incs))%nat with (S (i + length incs)) by lia.
Qed.

Lemma fill_paths_group (n : nat) (incs : list string) :
  n = length incs →
  fill_paths (replicate n EmptyString) 0 incs = Some (include_path <$> incs).
Proof.
  intros ->. rewrite fill_paths_spec by (rewrite length_replicate; lia).
  simpl. rewrite drop_ge by (rewrite length_replicate; lia).
  by rewrite app_nil_r.
Qed.

(** One turn of the loop over the groups. *)
Lemma handle_groups_cons r id includes ibg k g gs res s :
  group_ok r includes ibg (k, g) →
  ∃ g0, head g = Some g0 ∧ Key g0 = k ∧
    handle_groups id ibg ((k, g) :: gs) res s =
      let ret := Handle g0 g id
                   (include_path <$> group_members r k includes) None
                   (world s) in
      let s1 := {| world := ret.2;
                   calls := calls s ++ [group_call r id includes k g0 ret.1];
                   written := written s |} in
      match ret.1.2 with
      | Some e => Ret (None, Some e) s1
      | None =>
          match merge_results (group_members r k includes) res 0 ret.1.1 with
          | Some res' => handle_groups id ibg gs res' s1
          | None => Panic s1
          end
      end.
Proof.
  intros (Hg & Hibg & Hlen & g0 & Hhd & Hk). simpl in *.
  exists g0. split_and!; try done.
  cbn [handle_groups]. unfold mbind, M_bind, lift_opt. rewrite Hhd. simpl.
  rewrite Hk, Hibg, (fill_paths_group _ _ Hlen). simpl.
  unfold call_Handle, group_call. rewrite <-Hg.
  destruct (Handle g0 g id _ None (world s)) as [[rs [e|]] w]; simpl; [done|].
  by destruct (merge_results _ res 0 rs).
Qed.

(** The loop over the groups: the calls it makes are those of a prefix
    of the groups, in order; it stops at the first call that returns an
    error and returns that error; otherwise it returns the merged
    results of all the groups. *)
Lemma handle_groups_spec r id includes ibg gs :
  Forall (group_ok r includes ibg) gs →
  ∀ res s,
    ∃ new,
      calls (final (handle_groups id ibg gs res s)) = calls s ++ new ∧
      Forall2 (call_of_group r id includes) new (take (length new) gs) ∧
      match handle_groups id ibg gs res s with
      | Ret (Some m, None) _ =>
          length new = length gs ∧ calls_ok new ∧
          merge_calls r includes res new = Some m
      | Ret (None, Some e) _ =>
          ∃ new0 c, new = new0 ++ [c] ∧ calls_ok new0 ∧ (c_ret c).2 = Some e
      | Ret _ _ => False
      | Panic _ => calls_ok new
      end.
Proof.
  induction 1 as [|[k g] gs Hok Hgs IH]; intros res s.
  - exists []. simpl. rewrite app_nil_r. split_and!; try done; constructor.
  - destruct (handle_groups_cons r id includes ibg k g gs res s Hok)
      as (g0 & Hhd & Hk & ->).
    destruct (Handle g0 g id _ None (world s)) as [[rs err] w]. simpl.
    set (c := group_call r id includes k g0 (rs, err)).
    assert (call_of_group r id includes c (k, g)) as Hc.
    { exists (rs, err). by split_and!. }
    destruct err as [e|].
    { exists [c]. simpl. split_and!; try done.
      - by repeat constructor.
      - exists [], c. split_and!; try done. constructor. }
    destruct (merge_results _ res 0 rs) as [res'|] eqn:Hmerge.
    2:{ exists [c]. simpl. split_and!; try done; by repeat constructor. }
    set (s1 := {| world := w; calls := calls s ++ [c];
                  written := written s |}).
    destruct (IH res' s1) as (new & Hcalls & Hall & Hout).
    exists (c :: new). rewrite Hcalls. simpl.
    rewrite <-(assoc_L (++)). split_and!; try done.
    { by constructor. }
    destruct (handle_groups id ibg gs res' s1) as [[[m|] [e|]] s2|s2];
      try done.
    + destruct Hout as (Hlen & Hok' & Hm). split_and!.
      * by rewrite Hlen.
      * by constructor.
      * unfold call_key. simpl. rewrite Hk.
        change (c_ret c).1 with rs. by rewrite Hmerge.
    + destruct Hout as (new0 & c' & -> & Hok0 & He).
      exists (c :: new0), c'. split_and!; try done. by constructor.
    + by constructor.
Qed.

Lemma length_omap_registered r (l : list string) :
  all_registered r l → length (omap (include_handler r) l) = length l.
Proof.
  induction 1 as [|inc l [h Hh] Hl IH]; simpl; [done|].
  rewrite Hh. simpl. f_equal. exact IH.
Qed.

Lemma all_registered_members r k includes :
  all_registered r includes → all_registered r (group_members r k includes).
Proof.
  unfold all_registered, group_members. rewrite !Forall_forall.
  intros Hall inc [_ Hin]%list_elem_of_filter. by apply Hall.
Qed.

Lemma length_group_handlers r k includes :
  all_registered r includes →
  length (group_handlers r k includes) = length (group_members r k includes).
Proof.
  intros Hall. apply length_omap_registered.
  by apply all_registered_members.
Qed.

Lemma group_handlers_key r k includes h :
  h ∈ group_handlers r k includes → Key h = k.
Proof.
  unfold group_handlers. rewrite list_elem_of_omap.
  intros (inc & [Hk _]%list_elem_of_filter & Hh).
  unfold group_key in Hk. rewrite Hh in Hk. simpl in Hk. by injection Hk.
Qed.

Lemma nonempty_Some {A} (l g : list A) :
  nonempty l = Some g → g = l ∧ l ≠ [].
Proof. destruct l; [done|]. by intros [= <-]. Qed.

(** What the grouping loop hands to the loop over the groups. *)
Lemma groups_ok r includes (groups : gmap K (list Handler))
    (ibg : gmap K (list string)) (gs : list (K * list Handler)) :
  (∀ k, groups !! k = nonempty (group_handlers r k includes) ∧
        ibg !! k = nonempty (group_members r k includes)) →
  all_registered r includes →
  gs ≡ₚ map_to_list groups →
  Forall (group_ok r includes ibg) gs ∧ NoDup gs.*1 ∧
  ∀ inc, inc ∈ includes → ∃ k, group_key r inc = Some k ∧ k ∈ gs.*1.
Proof.
  intros Hinv Hreg Hperm. split_and!.
  - apply Forall_forall. intros [k g] Hin. rewrite Hperm in Hin.
    apply elem_of_map_to_list in Hin.
    destruct (Hinv k) as [Hg Hi]. rewrite Hin in Hg.
    symmetry in Hg. apply nonempty_Some in Hg as [-> Hne].
    unfold group_ok. simpl. split_and!; try done.
    + by apply lookup_total_nonempty.
    + by apply length_group_handlers.
    + destruct (group_handlers r k includes) as [|g0 g] eqn:Hgh; [done|].
      exists g0. split; [done|].
      apply (group_handlers_key r k includes). rewrite Hgh. by left.
  - rewrite Hperm. apply NoDup_fst_map_to_list.
  - intros inc Hin.
    pose proof (proj1 (Forall_forall _ _) Hreg inc Hin) as [h Hh].
    exists (Key h). unfold group_key. rewrite Hh. split; [done|].
    destruct (Hinv (Key h)) as [Hg _].
    assert (inc ∈ group_members r (Key h) includes) as Hmem.
    { apply list_elem_of_filter. split; [|done].
      unfold group_key. by rewrite Hh. }
    assert (group_handlers r (Key h) includes ≠ []) as Hne.
    { intros Hnil. apply (f_equal length) in Hnil.
      rewrite length_group_handlers in Hnil by done.
      destruct (group_members r (Key h) includes); [|done].
      by apply not_elem_of_nil in Hmem. }
    destruct (group_handlers r (Key h) includes) as [|g0 g] eqn:Hgh; [done|].
    simpl in Hg. rewrite Hperm.
    apply list_elem_of_fmap. exists (Key h, g0 :: g). split; [done|].
    by apply elem_of_map_to_list.
Qed.

(** [GetMetadata] is its second loop once the first has grouped the
    include names, and returns at once when a name has no handler. *)
Lemma GetMetadata_cases r id includes s :
  (∃ before include after,
     includes = before ++ include :: after ∧ all_registered r before ∧
     include_handler r include = None ∧
     GetMetadata r id includes s =
       Ret (None, Some (Errorf_unrecognized include)) s) ∨
  (∃ ibg gs,
     all_registered r includes ∧
     Forall (group_ok r includes ibg) gs ∧ NoDup gs.*1 ∧
     (∀ inc, inc ∈ includes → ∃ k, group_key r inc = Some k ∧ k ∈ gs.*1) ∧
     GetMetadata r id includes s = handle_groups id ibg gs ∅ s).
Proof.
  pose proof (group_includes_spec r includes [] ∅ ∅) as Hspec.
  unfold GetMetadata, mbind, M_bind, lift_opt.
  destruct (group_includes r includes ∅ ∅) as [[[groups ibg]|e]|].
  - right. destruct Hspec as [Hreg Hinv].
    { intros k. by rewrite !lookup_empty. }
    simpl in Hinv.
    exists ibg, (range_groups (map_to_list groups) (world s)).
    destruct (groups_ok r includes groups ibg
                (range_groups (map_to_list groups) (world s)) Hinv Hreg)
      as (? & ? & ?); [apply range_groups_perm|].
    by split_and!.
  - left. destruct Hspec as (before & inc & after & -> & Hb & Hn & ->).
    { intros k. by rewrite !lookup_empty. }
    exists before, inc, after. by split_and!.
  - destruct Hspec. intros k. by rewrite !lookup_empty.
Qed.

Lemma calls_of_groups r id includes new (gs : list (K * list Handler)) :
  Forall2 (call_of_group r id includes) new gs →
  call_key <$> new = gs.*1 ∧
  ∀ c, c ∈ new → ∃ kg, kg ∈ gs ∧ call_of_group r id includes c kg.
Proof.
  induction 1 as [|c kg new gs Hc Hall [IHk IHc]].
  - split; [done|]. by intros c ?%not_elem_of_nil.
  - split.
    + destruct Hc as (ret & _ & Hk & _). rewrite !fmap_cons.
      f_equal; [exact Hk|exact IHk].
    + intros c' [->|Hin]%elem_of_cons.
      * exists kg. split; [by left|done].
      * destruct (IHc c' Hin) as (kg' & ? & ?). exists kg'.
        split; [by right|done].
Qed.

(** What is known of a run of [GetMetadata] that got past the grouping
    loop, in terms of the calls it made. *)
Lemma GetMetadata_grouped r id includes s ibg gs :
  all_registered r includes →
  Forall (group_ok r includes ibg) gs → NoDup gs.*1 →
  GetMetadata r id includes s = handle_groups id ibg gs ∅ s →
  ∃ new,
    calls (final (GetMetadata r id includes s)) = calls s ++ new ∧
    call_key <$> new = take (length new) gs.*1 ∧
    NoDup (call_key <$> new) ∧
    (∀ c, c ∈ new →
       ∃ ret, c = group_call r id includes (call_key c) (c_h c) ret ∧
              head (c_hs c) = Some (c_h c) ∧
              group_members r (call_key c) includes ≠ []) ∧
    match GetMetadata r id includes s with
    | Ret (Some m, None) _ =>
        length new = length gs ∧ calls_ok new ∧
        merge_calls r includes ∅ new = Some m
    | Ret (None, Some e) _ =>
        ∃ new0 c, new = new0 ++ [c] ∧ calls_ok new0 ∧ (c_ret c).2 = Some e
    | Ret _ _ => False
    | Panic _ => calls_ok new
    end.
Proof.
  intros Hreg Hok Hnd ->.
  destruct (handle_groups_spec r id includes ibg gs Hok ∅ s)
    as (new & Hcalls & Hall & Hout).
  destruct (calls_of_groups _ _ _ _ _ Hall) as [Hkeys Hin].
  exists new. split_and!; try done.
  - by rewrite Hkeys, fmap_take.
  - rewrite Hkeys, fmap_take.
    eapply sublist_NoDup; [done|apply sublist_take].
  - intros c Hc. destruct (Hin c Hc) as ([k g] & Hkg & ret & Hhd & Hk & Heq).
    simpl in *.
    apply elem_of_take in Hkg as (i & Hkg & _).
    apply list_elem_of_lookup_2 in Hkg.
    pose proof (proj1 (Forall_forall _ _) Hok _ Hkg)
      as (Hg & _ & Hlen & _). simpl in *.
    exists ret. unfold call_key. rewrite Hk. split_and!; try done.
    + rewrite Heq at 1. simpl. by rewrite <-Hg.
    + intros Hnil. rewrite Hnil in Hlen. by destruct g.
Qed.

(** C1, as amended: the calls [GetMetadata] makes to [Handle] are made
    on pairwise distinct grouping keys, so the batch operation of a key
    is invoked at most once; the call for a key is made on the first handler of
    its group and receives all the handlers of the group and their
    sub-paths, in the order the include names were requested; and when
    [GetMetadata] returns a mapping, the key of every requested name
    has had its call, so each distinct key was invoked exactly once. *)
Theorem GetMetadata_batches r id includes s :
  ∃ new,
    calls (final (GetMetadata r id includes s)) = calls s ++ new ∧
    NoDup (call_key <$> new) ∧
    (∀ c, c ∈ new →
       group_members r (call_key c) includes ≠ [] ∧
       head (c_hs c) = Some (c_h c) ∧
       c_hs c = group_handlers r (call_key c) includes ∧
       c_paths c = include_path <$> group_members r (call_key c) includes ∧
       c_id c = id) ∧
    (∀ m s', GetMetadata r id includes s = Ret (Some m, None) s' →
       ∀ inc, inc ∈ includes →
         ∃ k, group_key r inc = Some k ∧ k ∈ call_key <$> new).
Proof.
  destruct (GetMetadata_cases r id includes s)
    as [(before & inc & after & _ & _ & _ & Hrun)
       |(ibg & gs & Hreg & Hok & Hnd & Hkeys & Hrun)].
  - exists []. rewrite Hrun. simpl. rewrite app_nil_r.
    split_and!; try done; [constructor|by intros c ?%not_elem_of_nil].
  - destruct (GetMetadata_grouped r id includes s ibg gs Hreg Hok Hnd Hrun)
      as (new & Hcalls & Hk & Hndk & Hshape & Hout).
    exists new. split_and!; try done.
    + intros c Hc. destruct (Hshape c Hc) as (ret & Heq & Hhd & Hne).
      split_and!; try done; by rewrite Heq.
    + intros m s' Hret inc Hinc. rewrite Hret in Hout.
      destruct Hout as (Hlen & _ & _).
      destruct (Hkeys inc Hinc) as (k & Hgk & Hin). exists k.
      split; [done|].
      rewrite Hk, Hlen, <-(length_fmap fst), firstn_all. done.
Qed.

(** C3: when a call to [Handle] made by [GetMetadata] returns an
    error, [GetMetadata] returns that error and the nil mapping: the
    results of the failed call and those merged from earlier calls are
    dropped. *)
Theorem GetMetadata_group_error r id includes s new c e :
  calls (final (GetMetadata r id includes s)) = calls s ++ new →
  c ∈ new → (c_ret c).2 = Some e →
  ∃ s', GetMetadata r id includes s = Ret (None, Some e) s'.
Proof.
  intros Hcalls Hc He.
  destruct (GetMetadata_cases r id includes s)
    as [(before & inc & after & _ & _ & _ & Hrun)
       |(ibg & gs & Hreg & Hok & Hnd & Hkeys & Hrun)].
  - rewrite Hrun in Hcalls. simpl in Hcalls.
    rewrite <-(app_nil_r (calls s)) in Hcalls at 1.
    apply app_inv_head in Hcalls as <-. by apply not_elem_of_nil in Hc.
  - destruct (GetMetadata_grouped r id includes s ibg gs Hreg Hok Hnd Hrun)
      as (new' & Hcalls' & _ & _ & _ & Hout).
    rewrite Hcalls in Hcalls'. apply app_inv_head in Hcalls' as <-.
    assert (calls_ok new → False) as Hno.
    { intros Hall. pose proof (proj1 (Forall_forall _ _) Hall c Hc).
      congruence. }
    destruct (GetMetadata r id includes s) as [[[m|] [e'|]] s'|s'];
      try done.
    + destruct Hout as (_ & Hall & _). by destruct Hno.
    + destruct Hout as (new0 & c' & -> & Hall & He').
      apply elem_of_app in Hc as [Hc|Hc].
      * pose proof (proj1 (Forall_forall _ _) Hall c Hc). congruence.
      * apply list_elem_of_singleton in Hc as ->.
        exists s'. rewrite He in He'. by injection He' as ->.
Qed.

(** Every call [GetMetadata] makes passes the nil [url.Values] as
    flags. *)
Lemma GetMetadata_flags r id includes s new c :
  calls (final (GetMetadata r id includes s)) = calls s ++ new →
  c ∈ new → c_flags c = None.
Proof.
  intros Hcalls Hc.
  destruct (GetMetadata_cases r id includes s)
    as [(before & inc & after & _ & _ & _ & Hrun)
       |(ibg & gs & Hreg & Hok & Hnd & Hkeys & Hrun)].
  - rewrite Hrun in Hcalls. simpl in Hcalls.
    rewrite <-(app_nil_r (calls s)) in Hcalls at 1.
    apply app_inv_head in Hcalls as <-. by apply not_elem_of_nil in Hc.
  - destruct (GetMetadata_grouped r id includes s ibg gs Hreg Hok Hnd Hrun)
      as (new' & Hcalls' & _ & _ & Hshape & _).
    rewrite Hcalls in Hcalls'. apply app_inv_head in Hcalls' as <-.
    destruct (Hshape c Hc) as (ret & -> & _). done.
Qed.

(** C7: when one of the include names has no handler registered under
    its handler key, [GetMetadata] returns the nil mapping and the
    error [unrecognized metadata name] followed by the quoted name, for
    the first such name, and ends in the state it started in: no call
    to [Handle] has been made.  The quoted name is the name between
    double quotes when it is made of plain bytes. *)
Theorem GetMetadata_unrecognized r id includes s :
  (∃ inc, inc ∈ includes ∧ Meta (handlers r) !! include_key inc = None) →
  ∃ before inc after,
    includes = before ++ inc :: after ∧ all_registered r before ∧
    include_handler r inc = None ∧
    GetMetadata r id includes s =
      Ret (None, Some (Errorf_unrecognized inc)) s ∧
    calls (final (GetMetadata r id includes s)) = calls s ∧
    Error (Errorf_unrecognized inc) =
      "unrecognized metadata name " +:+ Quote inc ∧
    (plain inc = true →
     Error (Errorf_unrecognized inc) =
       "unrecognized metadata name " +:+ quoted inc).
Proof.
  intros (inc0 & Hin & Hnone).
  destruct (GetMetadata_cases r id includes s)
    as [(before & inc & after & Heq & Hb & Hn & Hrun)
       |(ibg & gs & Hreg & _)].
  - exists before, inc, after. rewrite Hrun. split_and!; try done.
    intros Hplain. simpl. by rewrite Quote_plain.
  - pose proof (proj1 (Forall_forall _ _) Hreg inc0 Hin) as [h Hh].
    unfold include_handler, meta_handler in Hh. by rewrite Hnone in Hh.
Qed.

(** *** Merging the results *)
















End RouterFacts.

(** ** serveMeta and the bulk endpoint *)

Section BulkFacts.

Context {T : Types} {C : Collaborators}.

Implicit Types (r : Router) (req : Request) (ids : list string).

(** The [Meta] field of the response to [meta/any] is the mapping
    [GetMetadata] returns for the [include] values of the form. *)
Lemma serveMeta_any r id req s path :
  handlerKey (URL_Path req) = Some ("any", path) →
  serveMeta r id req s =
    match GetMetadata r id (values_get (Form req) "include") s with
    | Ret (_, Some e) s' => Ret (None, Some e) s'
    | Ret (meta, None) s' => Ret (Some (RMetaAny id meta), None) s'
    | Panic s' => Panic s'
    end.
Proof.
  intros Hkey. unfold serveMeta, mbind, M_bind, lift_opt. rewrite Hkey.
  simpl.
  by destruct (GetMetadata r id _ s) as [[meta [e|]] s'|s'].
Qed.

(** Where an error of [GetMetadata] comes from: it is the error for an
    include name without handler, or the error that the last call to
    [Handle] has returned. *)
Lemma GetMetadata_error_source r id includes s v e s' :
  GetMetadata r id includes s = Ret (v, Some e) s' →
  (∃ inc, inc ∈ includes ∧ include_handler r inc = None ∧
          e = Errorf_unrecognized inc ∧ s' = s) ∨
  (∃ new0 c, calls s' = calls s ++ new0 ++ [c] ∧ (c_ret c).2 = Some e).
Proof.
  intros Hret.
  destruct (GetMetadata_cases r id includes s)
    as [(b & i & a & -> & _ & Hnone & HG)|(ibg & gs & Hreg & Hok & Hnd & _ & HG)].
  - rewrite HG in Hret. injection Hret as <- <- <-. left. exists i.
    split_and!; try done. apply elem_of_app. right. apply list_elem_of_here.
  - destruct (GetMetadata_grouped r id includes s ibg gs Hreg Hok Hnd HG)
      as (new & Hcalls & _ & _ & _ & Hm).
    rewrite Hret in Hcalls, Hm. simpl in Hcalls.
    destruct v as [m|]; [done|].
    destruct Hm as (new0 & c & -> & _ & He). right. by exists new0, c.
Qed.

(** C8, as amended: a request for a facet name other than [any] that
    has no handler is answered by [ErrNotFound], whose message is
    [not found], without any call to a handler.  And whatever the
    request, an error that [serveMeta] returns is the error that the
    last call to [Handle] has returned, or [ErrNotFound] for a key
    without handler, or [ErrDataNotFound] for a null-equivalent result,
    or, for the key [any] only and for a name of the include list that
    has no handler, the error [unrecognized metadata name] followed by
    the quoted name. *)
Theorem serveMeta_unregistered r id req s key path :
  handlerKey (URL_Path req) = Some (key, path) →
  key ≠ EmptyString → key ≠ "any" → meta_handler r key = None →
  serveMeta r id req s = Ret (None, Some ErrNotFound) s ∧
  Error ErrNotFound = "not found" ∧
  ∀ id0 req0 s0 v e s',
    serveMeta r id0 req0 s0 = Ret (v, Some e) s' →
    (∃ new0 c, calls s' = calls s0 ++ new0 ++ [c] ∧ (c_ret c).2 = Some e) ∨
    (∃ key0 path0,
       handlerKey (URL_Path req0) = Some (key0, path0) ∧ key0 ≠ "any" ∧
       meta_handler r key0 = None ∧ e = ErrNotFound ∧ s' = s0) ∨
    (∃ key0 path0 c res,
       handlerKey (URL_Path req0) = Some (key0, path0) ∧ key0 ≠ "any" ∧
       calls s' = calls s0 ++ [c] ∧ (c_ret c).2 = None ∧
       (c_ret c).1 !! 0%nat = Some res ∧ isNull res = true ∧
       e = ErrDataNotFound) ∨
    (∃ path0 inc,
       handlerKey (URL_Path req0) = Some ("any", path0) ∧
       inc ∈ values_get (Form req0) "include" ∧
       include_handler r inc = None ∧ s' = s0 ∧
       e = Errorf_unrecognized inc ∧
       Error e = "unrecognized metadata name " +:+ Quote inc).
Proof.
  intros Hkey Hne Hany Hnone. split_and!; [|done|].
  { unfold serveMeta, mbind, M_bind, lift_opt. rewrite Hkey. simpl.
    rewrite !bool_decide_false by done. by rewrite Hnone. }
  clear. intros id req s v e s'.
  destruct (handlerKey_total (URL_Path req)) as (key & path & Hk).
  unfold serveMeta, mbind, M_bind, lift_opt. rewrite Hk. simpl.
  case_bool_decide as Hempty; [done|]. case_bool_decide as Hany.
  - subst key.
    destruct (GetMetadata r id (values_get (Form req) "include") s)
      as [[m [e'|]] s1|s1] eqn:HG; simpl; [|done|done].
    intros [= <- <- <-].
    apply GetMetadata_error_source in HG
      as [(inc & Hinc & Hn & -> & ->)|(new0 & c & Hc & He)].
    + do 3 right. by exists path, inc.
    + left. by exists new0, c.
  - destruct (meta_handler r key) as [h|] eqn:Hh.
    + unfold call_Handle.
      destruct (Handle h [h] id [path] (Form req) (world s))
        as [[rs [e'|]] w] eqn:HH; simpl.
      * intros [= <- <- <-]. left. eexists [], _. simpl. by split.
      * destruct (rs !! 0%nat) as [x|] eqn:Hx; simpl; [|done].
        destruct (isNull x) eqn:Hnull; [|done].
        intros [= <- <- <-]. right. right. left.
        eexists key, path, _, x. simpl. by split_and!.
    + intros [= <- <- <-]. right. left. by exists key, path.
Qed.

(** The loop of [serveBulkMeta] does what the specification says of
    each identifier. *)
Lemma bulk_body_outcome r req id res s :
  match id_outcome_of r req id s with
  | (IdNotFound, s1) | (IdNoData, s1) =>
      bulk_body r req id res s = Ret (Next res) s1
  | (IdOk meta, s1) =>
      bulk_body r req id res s = Ret (Next (<[id := meta]> res)) s1
  | (IdFailed e, s1) => bulk_body r req id res s = Ret (Return e) s1
  | (IdPanic, s1) => bulk_body r req id res s = Panic s1
  end.
Proof.
  unfold id_outcome_of, bulk_body, mbind, M_bind, lift_opt.
  destruct (parseURL id) as [[url|] [e|]]; simpl; try done.
  destruct (call_resolveURL r url s) as [[url' [e|]] s1|s1]; simpl;
    [by destruct e| |done].
  destruct (serveMeta r url' req s1) as [[meta [e|]] s2|s2]; simpl;
    [by destruct e|done|done].
Qed.

Lemma bulk_loop_spec r req ids :
  ∀ res s,
    let outs := bulk_outcomes r req ids s in
    match bulk_loop r req ids res s with
    | Ret (Some m, None) _ =>
        Forall (λ o, continues o = true) outs ∧ length outs = length ids ∧
        m = foldl put res (bulk_entries ids outs)
    | Ret (None, Some e) _ =>
        ∃ outs0, outs = outs0 ++ [IdFailed e] ∧
                 Forall (λ o, continues o = true) outs0
    | Ret _ _ => False
    | Panic _ =>
        ∃ outs0, outs = outs0 ++ [IdPanic] ∧
                 Forall (λ o, continues o = true) outs0
    end.
Proof.
  induction ids as [|id ids IH]; intros res s; simpl.
  - split_and!; try done.
  - unfold mbind, M_bind.
    pose proof (bulk_body_outcome r req id res s) as Hbody.
    destruct (id_outcome_of r req id s) as [o s1].
    destruct o as [| |e| |meta]; rewrite Hbody; simpl.
    + specialize (IH res s1). simpl in IH.
      destruct (bulk_loop r req ids res s1) as [[[m|] [e|]] s2|s2]; try done.
      * destruct IH as (? & ? & ?). split_and!; [by constructor|lia|done].
      * destruct IH as (outs0 & -> & ?). exists (IdNotFound :: outs0).
        split; [done|by constructor].
      * destruct IH as (outs0 & -> & ?). exists (IdNotFound :: outs0).
        split; [done|by constructor].
    + specialize (IH res s1). simpl in IH.
      destruct (bulk_loop r req ids res s1) as [[[m|] [e|]] s2|s2]; try done.
      * destruct IH as (? & ? & ?). split_and!; [by constructor|lia|done].
      * destruct IH as (outs0 & -> & ?). exists (IdNoData :: outs0).
        split; [done|by constructor].
      * destruct IH as (outs0 & -> & ?). exists (IdNoData :: outs0).
        split; [done|by constructor].
    + exists []. split; [done|constructor].
    + exists []. split; [done|constructor].
    + specialize (IH (<[id := meta]> res) s1). simpl in IH.
      destruct (bulk_loop r req ids _ s1) as [[[m|] [e|]] s2|s2]; try done.
      * destruct IH as (? & ? & ?). split_and!; [by constructor|lia|done].
      * destruct IH as (outs0 & -> & ?). exists (IdOk meta :: outs0).
        split; [done|by constructor].
      * destruct IH as (outs0 & -> & ?). exists (IdOk meta :: outs0).
        split; [done|by constructor].
Qed.

(** What a sequence of assignments leaves under a key: the value of the
    last assignment to it. *)
Lemma foldl_put_lookup (l : list (string * option resp)) res key :
  foldl put res l !! key =
    match last (filter (λ p, p.1 = key) l) with
    | Some p => Some p.2
    | None => res !! key
    end.
Proof.
  induction l as [|p l IH] using rev_ind; [done|].
  rewrite foldl_app, filter_app. simpl. unfold put at 1.
  rewrite filter_cons, filter_nil.
  destruct (decide (p.1 = key)) as [<-|Hne].
  - by rewrite last_snoc, lookup_insert_eq.
  - by rewrite app_nil_r, lookup_insert_ne.
Qed.

Lemma elem_of_bulk_entries ids (outs : list id_outcome) id meta :
  (id, meta) ∈ bulk_entries ids outs ↔
  ∃ i, ids !! i = Some id ∧ outs !! i = Some (IdOk meta).
Proof.
  unfold bulk_entries. rewrite list_elem_of_omap. split.
  - intros ([id' o] & Hin & He).
    apply elem_of_lookup_zip_with in Hin as (i & ? & ? & [= <- <-] & ? & ?).
    unfold entry_of in He. simpl in He. destruct o; try done.
    injection He as <- <-. by exists i.
  - intros (i & Hi & Ho). exists (id, IdOk meta). split; [|done].
    apply elem_of_lookup_zip_with. by exists i, id, (IdOk meta).
Qed.

Lemma foldl_put_is_Some ids (outs : list id_outcome) key :
  is_Some (foldl put ∅ (bulk_entries ids outs) !! key) ↔
  ∃ i meta, ids !! i = Some key ∧ outs !! i = Some (IdOk meta).
Proof.
  rewrite foldl_put_lookup, lookup_empty.
  destruct (last (filter _ _)) as [[id meta]|] eqn:Hlast.
  - apply last_Some_elem_of, list_elem_of_filter in Hlast as [Hk Hin].
    simpl in Hk. subst id.
    apply elem_of_bulk_entries in Hin as (i & ? & ?).
    split; [by exists i, meta|eauto].
  - split; [by intros [? ?]|]. intros (i & meta & Hi & Ho).
    apply last_None in Hlast.
    assert ((key, meta) ∈ filter (λ p, p.1 = key) (bulk_entries ids outs))
      as Hin.
    { apply list_elem_of_filter. split; [done|].
      apply elem_of_bulk_entries. by exists i. }
    rewrite Hlast in Hin. by apply not_elem_of_nil in Hin.
Qed.

Lemma length_bulk_outcomes r req ids :
  ∀ s, (length (bulk_outcomes r req ids s) ≤ length ids)%nat.
Proof.
  induction ids as [|id ids IH]; intros s; simpl; [done|].
  destruct (id_outcome_of r req id s) as [o s1]. simpl.
  destruct (continues o); simpl; [|lia].
  specialize (IH s1). lia.
Qed.

Lemma serveBulkMeta_loop r req s :
  values_get (Form req) "id" ≠ [] →
  serveBulkMeta r req s =
    bulk_loop r (bulk_request req) (values_get (Form req) "id") ∅ s.
Proof.
  intros Hne. unfold serveBulkMeta.
  rewrite bool_decide_false; [done|].
  by destruct (values_get (Form req) "id").
Qed.

(** C4, as amended: let the identifiers of a bulk request meet, in
    turn, the outcomes [outs].  When none fails, the request succeeds and
    its mapping has an entry for exactly the identifier strings that
    were included: those that did not resolve (NotFound) and those
    without metadata are left out without an error.  When one fails
    with another error, the whole request returns that error.  So when
    the identifier strings are pairwise distinct, one does not resolve
    and all the others are included, the mapping has one entry less
    than there are identifiers. *)
Theorem serveBulkMeta_omits r req s :
  let ids := values_get (Form req) "id" in
  let outs := bulk_outcomes r (bulk_request req) ids s in
  ids ≠ [] →
  (Forall (λ o, continues o = true) outs →
   ∃ m s', serveBulkMeta r req s = Ret (Some m, None) s' ∧
     ∀ id, is_Some (m !! id) ↔
           ∃ i meta, ids !! i = Some id ∧ outs !! i = Some (IdOk meta)) ∧
  (∀ outs0 e, outs = outs0 ++ [IdFailed e] →
   ∃ s', serveBulkMeta r req s = Ret (None, Some e) s') ∧
  (NoDup ids →
   ∀ j, outs !! j = Some IdNotFound →
     (∀ i, i ≠ j → (i < length ids)%nat →
        ∃ meta, outs !! i = Some (IdOk meta)) →
     ∃ m s', serveBulkMeta r req s = Ret (Some m, None) s' ∧
             size m = (length ids - 1)%nat).
Proof.
  intros ids outs Hne. rewrite serveBulkMeta_loop by done. fold ids.
  pose proof (bulk_loop_spec r (bulk_request req) ids ∅ s) as Hspec.
  simpl in Hspec. fold outs in Hspec.
  assert (Forall (λ o, continues o = true) outs →
          ∃ m s', bulk_loop r (bulk_request req) ids ∅ s
                    = Ret (Some m, None) s' ∧
                  m = foldl put ∅ (bulk_entries ids outs)) as Hsucc.
  { intros Hall.
    destruct (bulk_loop r (bulk_request req) ids ∅ s)
      as [[[m|] [e|]] s'|s']; try done.
    - destruct Hspec as (_ & _ & ->). eauto.
    - destruct Hspec as (outs0 & Houts & _). rewrite Houts in Hall.
      apply Forall_app in Hall as [_ Hall]. by inversion Hall.
    - destruct Hspec as (outs0 & Houts & _). rewrite Houts in Hall.
      apply Forall_app in Hall as [_ Hall]. by inversion Hall. }
  split_and!.
  - intros Hall. destruct (Hsucc Hall) as (m & s' & -> & Hm).
    exists m, s'. split; [done|]. intros id. rewrite Hm.
    apply foldl_put_is_Some.
  - intros outs0 e Houts.
    destruct (bulk_loop r (bulk_request req) ids ∅ s)
      as [[[m|] [e'|]] s'|s']; try done.
    + destruct Hspec as (Hall & _). rewrite Houts in Hall.
      apply Forall_app in Hall as [_ Hall]. by inversion Hall.
    + destruct Hspec as (outs0' & Houts' & _). rewrite Houts in Houts'.
      apply app_inj_tail in Houts' as [_ [= ->]]. eauto.
    + destruct Hspec as (outs0' & Houts' & _). rewrite Houts in Houts'.
      by apply app_inj_tail in Houts' as [_ ?].
  - intros Hnd j Hj Hothers.
    pose proof (length_bulk_outcomes r (bulk_request req) ids s) as Hlen.
    fold outs in Hlen.
    assert (Forall (λ o, continues o = true) outs) as Hall.
    { apply Forall_lookup. intros i o Hi.
      destruct (decide (i = j)) as [->|Hij].
      { rewrite Hj in Hi. by injection Hi as <-. }
      destruct (Hothers i Hij) as [meta Hm].
      { apply lookup_lt_Some in Hi. lia. }
      rewrite Hm in Hi. by injection Hi as <-. }
    destruct (Hsucc Hall) as (m & s' & -> & Hm).
    exists m, s'. split; [done|].
    assert (j < length ids)%nat as Hjlt.
    { apply lookup_lt_Some in Hj. lia. }
    destruct (lookup_lt_is_Some_2 ids j Hjlt) as [idj Hidj].
    assert (dom m = list_to_set ids ∖ {[idj]}) as Hdom.
    { apply set_eq. intros id.
      rewrite elem_of_dom, Hm, foldl_put_is_Some, elem_of_difference,
        elem_of_list_to_set, elem_of_singleton.
      split.
      - intros (i & meta & Hi & Ho). split.
        + by eapply list_elem_of_lookup_2.
        + intros ->. assert (i = j) as -> by by eapply NoDup_lookup.
          congruence.
      - intros [[i Hi]%list_elem_of_lookup Hneq].
        assert (i ≠ j) as Hij by (intros ->; congruence).
        destruct (Hothers i Hij) as [meta Ho];
          [by eapply lookup_lt_Some|].
        by exists i, meta. }
    rewrite <-size_dom, Hdom. rewrite size_difference.
    + by rewrite size_singleton, size_list_to_set.
    + apply singleton_subseteq_l, elem_of_list_to_set.
      by eapply list_elem_of_lookup_2.
Qed.

(** C5, as amended: the mapping of a bulk request is keyed by the
    identifier strings as the caller sent them; under a key stands the
    entry of the last identifier equal to that very string that was
    included; and an included identifier whose string occurs once in
    the request keeps its own entry, whatever the other identifiers
    canonicalize to. *)
Theorem serveBulkMeta_keys r req s m s' :
  let ids := values_get (Form req) "id" in
  let outs := bulk_outcomes r (bulk_request req) ids s in
  serveBulkMeta r req s = Ret (Some m, None) s' →
  (∀ key, is_Some (m !! key) → key ∈ ids) ∧
  (∀ key, m !! key =
     match last (filter (λ p, p.1 = key) (bulk_entries ids outs)) with
     | Some p => Some p.2
     | None => None
     end) ∧
  (∀ i id meta,
     ids !! i = Some id → outs !! i = Some (IdOk meta) →
     (∀ j, ids !! j = Some id → j = i) →
     m !! id = Some meta).
Proof.
  intros ids outs Hret.
  assert (ids ≠ []) as Hne.
  { intros Hnil. unfold serveBulkMeta in Hret. fold ids in Hret.
    rewrite Hnil in Hret. simpl in Hret. by injection Hret. }
  rewrite serveBulkMeta_loop in Hret by done. fold ids in Hret.
  pose proof (bulk_loop_spec r (bulk_request req) ids ∅ s) as Hspec.
  simpl in Hspec. rewrite Hret in Hspec. fold outs in Hspec.
  destruct Hspec as (_ & _ & Hm).
  assert (∀ key, m !! key =
            match last (filter (λ p, p.1 = key) (bulk_entries ids outs)) with
            | Some p => Some p.2
            | None => None
            end) as Hlast.
  { intros key. by rewrite Hm, foldl_put_lookup, lookup_empty. }
  split_and!; [|done|].
  - intros key. rewrite Hm, foldl_put_is_Some.
    intros (i & _ & Hi & _). by eapply list_elem_of_lookup_2.
  - intros i id meta Hi Ho Huniq. rewrite Hlast.
    destruct (last (filter _ _)) as [[id' meta']|] eqn:Hl.
    + apply last_Some_elem_of, list_elem_of_filter in Hl as [Hk Hin].
      simpl in Hk. subst id'.
      apply elem_of_bulk_entries in Hin as (j & Hj & Hoj).
      apply Huniq in Hj as ->. simpl. congruence.
    + apply last_None in Hl.
      assert ((id, meta) ∈ filter (λ p, p.1 = id) (bulk_entries ids outs))
        as Hin.
      { apply list_elem_of_filter. split; [done|].
        apply elem_of_bulk_entries. by exists i. }
      rewrite Hl in Hin. by apply not_elem_of_nil in Hin.
Qed.

(** Identifier-rooted dispatch of a path that has nothing after the
    identifier returns [ErrNotFound]. *)
Lemma serveIds_no_key r req s url rest url' w rest' :
  ParseForm_err req = None →
  splitId (TrimSuffix (URL_Path req) "/") = Some (Some url, rest, None) →
  resolveURL r url (world s) = ((url', None), w) →
  handlerKey rest = Some (EmptyString, rest') →
  serveIds r req s =
    Ret (Some ErrNotFound)
        {| world := w; calls := calls s; written := written s |}.
Proof.
  intros Hform Hsplit Hres Hkey.
  unfold serveIds, mbind, M_bind, lift_opt, call_resolveURL.
  rewrite Hform, Hsplit. simpl. rewrite Hres. simpl. by rewrite Hkey.
Qed.

End BulkFacts.

(** ** Runs of the small router *)

Section ToyRuns.

Import Toy.

#[local] Existing Instance toy_types.
#[local] Existing Instance toy_collaborators.

(** C10, on the example of the source: [splitPath("/foo/bar/bzr", 4)]. *)
Lemma splitPath_spec_witness :
  ∃ elem next rest,
    splitPath "/foo/bar/bzr" 4 = Some (elem, next) ∧
    slice_from "/foo/bar/bzr" (element_start "/foo/bar/bzr" 4) = Some rest ∧
    slice "/foo/bar/bzr" (element_start "/foo/bar/bzr" 4) next = Some elem ∧
    no_slash elem = true ∧
    (if no_slash rest
     then elem = rest ∧ next = len "/foo/bar/bzr"
     else next < len "/foo/bar/bzr" ∧
          byte_at "/foo/bar/bzr" next = Some "/"%char).
Proof. apply (splitPath_spec "/foo/bar/bzr" 4). by vm_compute. Defined.

(** C1: the names [size] and [hash] belong to the group [blob].  When
    a name of the request has no handler, no call is made at all; and
    when the group [fail], visited before [blob], returns an error, the
    calls are those of [none] and [fail] only.  In both requests the
    batch operation of [blob] is not invoked. *)
Lemma GetMetadata_group_not_invoked :
  group_key toy_router "size" = Some "blob" ∧
  group_key toy_router "hash" = Some "blob" ∧
  toy_GetMetadata ["size"; "hash"; "bogus"] toy_state =
    Ret (None, Some (Errorf_unrecognized "bogus")) toy_state ∧
  call_key <$> calls (final (toy_GetMetadata ["size"; "hash"; "bogus"]
                               toy_state)) = [] ∧
  call_key <$> calls (final (toy_GetMetadata ["size"; "fail"; "none"]
                               toy_state)) = ["none"; "fail"].
Proof. by vm_compute. Qed.


(** C3, on a request one of whose groups fails. *)
Lemma GetMetadata_group_error_witness :
  ∃ s', toy_GetMetadata ["size"; "fail"; "none"] toy_state =
          Ret (None, Some toy_boom) s'.
Proof.
  apply (GetMetadata_group_error toy_router toy_id ["size"; "fail"; "none"]
           toy_state
           [toy_call "none" ([None], None);
            toy_call "fail" ([], Some toy_boom)]
           (toy_call "fail" ([], Some toy_boom))).
  - by vm_compute.
  - apply list_elem_of_further, list_elem_of_here.
  - reflexivity.
Defined.

(** C7, on a request with an unregistered name. *)
Lemma GetMetadata_unrecognized_witness :
  ∃ before inc after,
    ["size"; "bogus"; "none"] = before ++ inc :: after ∧
    all_registered toy_router before ∧
    include_handler toy_router inc = None ∧
    toy_GetMetadata ["size"; "bogus"; "none"] toy_state =
      Ret (None, Some (Errorf_unrecognized inc)) toy_state ∧
    calls (final (toy_GetMetadata ["size"; "bogus"; "none"] toy_state)) =
      calls toy_state ∧
    Error (Errorf_unrecognized inc) =
      "unrecognized metadata name " +:+ Quote inc ∧
    (plain inc = true →
     Error (Errorf_unrecognized inc) =
       "unrecognized metadata name " +:+ quoted inc).
Proof.
  apply (GetMetadata_unrecognized toy_router toy_id ["size"; "bogus"; "none"]
           toy_state).
  exists "bogus". split.
  - apply list_elem_of_further, list_elem_of_here.
  - by vm_compute.
Defined.

(** C8: on the small router, where no handler is registered for
    [bogus], the request for [meta/bogus] is answered by [ErrNotFound];
    its message, [not found], does not contain [unrecognized metadata
    name], let alone the quoted name. *)
Lemma serveMeta_bogus_not_found :
  toy_serveIds (toy_request "/wordpress/meta/bogus" []) toy_state =
    Ret (Some ErrNotFound) toy_state ∧
  toy_serveMeta (toy_request "/bogus" []) toy_state =
    Ret (None, Some ErrNotFound) toy_state ∧
  Error ErrNotFound = "not found" ∧
  Contains (Error ErrNotFound) "unrecognized metadata name" = false ∧
  Contains (Error ErrNotFound) (Error (Errorf_unrecognized "bogus")) = false.
Proof. by vm_compute. Qed.

Lemma serveMeta_unregistered_witness :
  toy_serveMeta (toy_request "/bogus" []) toy_state =
    Ret (None, Some ErrNotFound) toy_state ∧
  Error ErrNotFound = "not found" ∧
  ∀ id0 req0 s0 v e s',
    serveMeta toy_router id0 req0 s0 = Ret (v, Some e) s' →
    (∃ new0 c, calls s' = calls s0 ++ new0 ++ [c] ∧ (c_ret c).2 = Some e) ∨
    (∃ key0 path0,
       handlerKey (URL_Path req0) = Some (key0, path0) ∧ key0 ≠ "any" ∧
       meta_handler toy_router key0 = None ∧ e = ErrNotFound ∧ s' = s0) ∨
    (∃ key0 path0 c res,
       handlerKey (URL_Path req0) = Some (key0, path0) ∧ key0 ≠ "any" ∧
       calls s' = calls s0 ++ [c] ∧ (c_ret c).2 = None ∧
       (c_ret c).1 !! 0%nat = Some res ∧ isNull res = true ∧
       e = ErrDataNotFound) ∨
    (∃ path0 inc,
       handlerKey (URL_Path req0) = Some ("any", path0) ∧
       inc ∈ values_get (Form req0) "include" ∧
       include_handler toy_router inc = None ∧ s' = s0 ∧
       e = Errorf_unrecognized inc ∧
       Error e = "unrecognized metadata name " +:+ Quote inc).
Proof.
  apply (serveMeta_unregistered toy_router toy_id (toy_request "/bogus" [])
           toy_state "bogus" EmptyString); by vm_compute.
Defined.

(** C6: a request for [meta/any] whose form holds query values reaches
    the handler with the nil [url.Values]; the same form reaches the
    handler when the facet is requested by its own path. *)
Theorem serveMeta_any_drops_flags :
  let form := [("include", ["size"; "hash"]); ("verbose", ["1"])] in
  Form (toy_request "/any" form) ≠ None ∧
  c_flags <$> calls (final (toy_serveMeta (toy_request "/any" form) toy_state))
    = [None] ∧
  c_flags <$> calls (final (toy_serveMeta (toy_request "/size" form) toy_state))
    = [Form (toy_request "/size" form)].
Proof. by vm_compute. Qed.

(** C4, on a bulk request for three distinct identifiers of which the
    second does not resolve: the request succeeds with two entries. *)
Lemma serveBulkMeta_omits_witness :
  ∃ m s', toy_serveBulkMeta toy_bulk_request toy_state = Ret (Some m, None) s' ∧
          size m = 2%nat.
Proof.
  assert (values_get (Form toy_bulk_request) "id" ≠ []) as Hne
    by by vm_compute.
  destruct (serveBulkMeta_omits toy_router toy_bulk_request toy_state Hne)
    as (_ & _ & Hcount).
  assert (NoDup (values_get (Form toy_bulk_request) "id")) as Hnd
    by (apply (bool_decide_unpack _); by vm_compute).
  apply (Hcount Hnd 1%nat).
  - by vm_compute.
  - intros [|[|[|i]]] Hi Hlt; try done.
    + by eexists.
    + by eexists.
    + vm_compute in Hlt. lia.
Defined.

(** C4: of the three identifiers of this request one does not resolve
    (NotFound) and the two others are included, and the request
    succeeds; but the two are the same string, and the mapping has one
    entry, not two. *)
Lemma serveBulkMeta_same_id_twice :
  values_get (Form toy_bulk_twice) "id" = ["wordpress"; "wordpress"; "missing"] ∧
  bulk_outcomes toy_router (bulk_request toy_bulk_twice)
    ["wordpress"; "wordpress"; "missing"] toy_state
    = [IdOk (Some (RValue (toy_value "size")));
       IdOk (Some (RValue (toy_value "size"))); IdNotFound] ∧
  ∃ m s', toy_serveBulkMeta toy_bulk_twice toy_state = Ret (Some m, None) s' ∧
          size m = 1%nat.
Proof.
  split_and!; [by vm_compute|by vm_compute|].
  eexists _, _. split; [by vm_compute|by vm_compute].
Qed.

(** C5: the identifier strings [cs:wordpress] and [wordpress]
    canonicalize to the same URL, and yet each has its own entry in the
    mapping of the bulk request: the keys do not collide. *)
Lemma serveBulkMeta_same_canonical_two_keys :
  canonical toy_router "cs:wordpress" toy_state =
    Some (@Build_URL toy_types "wordpress" "trusty") ∧
  canonical toy_router "wordpress" toy_state =
    Some (@Build_URL toy_types "wordpress" "trusty") ∧
  toy_serveBulkMeta toy_bulk_request toy_state =
    Ret (Some toy_bulk_map, None)
        (final (toy_serveBulkMeta toy_bulk_request toy_state)) ∧
  toy_bulk_map !! "cs:wordpress" = Some (Some (RValue (toy_value "size"))) ∧
  toy_bulk_map !! "wordpress" = Some (Some (RValue (toy_value "size"))) ∧
  size toy_bulk_map = 2%nat.
Proof. by vm_compute. Qed.

Lemma serveBulkMeta_keys_witness :
  (∀ key, is_Some (toy_bulk_map !! key) →
          key ∈ ["cs:wordpress"; "missing"; "wordpress"]) ∧
  toy_bulk_map !! "wordpress" = Some (Some (RValue (toy_value "size"))).
Proof.
  destruct (serveBulkMeta_keys toy_router toy_bulk_request toy_state
              toy_bulk_map
              (final (toy_serveBulkMeta toy_bulk_request toy_state)))
    as (Hkeys & _ & Hown); [by vm_compute|].
  split; [exact Hkeys|].
  apply (Hown 2%nat); [by vm_compute|by vm_compute|].
  intros [|[|[|j]]]; by vm_compute.
Defined.

End ToyRuns.

(** * Further properties of the router *)

(** ** Path splitting *)

Lemma sdrop_all n s : (String.length s ≤ n)%nat → sdrop n s = EmptyString.
Proof.
  revert s. induction n as [|n IH]; intros [|c s]; simpl; intros Hn;
    try done; try lia.
  apply IH. lia.
Qed.

Lemma sdrop_S_get n s c :
  String.get n s = Some c → sdrop n s = String c (sdrop (S n) s).
Proof.
  revert s. induction n as [|n IH]; intros [|a s]; simpl; try done.
  - by intros [= ->].
  - intros Hg. by rewrite (IH _ Hg).
Qed.

Lemma sdrop_sdrop n m s : sdrop n (sdrop m s) = sdrop (m + n) s.
Proof.
  revert s. induction m as [|m IH]; intros s; [done|].
  destruct s as [|c s]; simpl; [by destruct n|]. apply IH.
Qed.

(** Inside the path, [splitPath] in one equation. *)
Lemma splitPath_unfold path i :
  0 ≤ i ≤ len path →
  splitPath path i =
    let st := element_start path i in
    let rest := sdrop (Z.to_nat st) path in
    Some (match index_nat rest "/" with
          | None => (rest, len path)
          | Some n => (stake n rest, Z.of_nat n + st)
          end).
Proof.
  intros Hi.
  pose proof (element_start_bounds path i Hi) as Hs.
  unfold splitPath. rewrite splitPath_start by done. simpl.
  unfold slice_from. rewrite bool_decide_true by lia. simpl.
  set (st := element_start path i) in *.
  set (rest := sdrop (Z.to_nat st) path).
  unfold Index.
  destruct (index_nat rest "/") as [n|] eqn:Hn.
  - apply index_nat_slash_Some in Hn as (Hlt & _).
    unfold rest in Hlt. rewrite length_sdrop in Hlt.
    rewrite bool_decide_false by lia.
    unfold slice. rewrite bool_decide_true by (unfold len; lia). simpl.
    by replace (Z.to_nat (Z.of_nat n + st - st)) with n by lia.
  - by rewrite bool_decide_true.
Qed.

(** X1: [splitPath] returns exactly when the start index lies inside
    the path, [0 <= i <= len(path)]; with any other index it panics. *)
Theorem splitPath_returns_iff path i :
  is_Some (splitPath path i) ↔ 0 ≤ i ≤ len path.
Proof.
  split.
  - intros Hsome. destruct (decide (0 ≤ i ≤ len path)) as [|Hout]; [done|].
    rewrite splitPath_out_of_range in Hsome by done. by destruct Hsome.
  - intros Hi. destruct (splitPath_returns path i Hi) as (e & n & -> & _).
    eauto.
Qed.

(** X2: what [splitPath] returns splits the path at [i] without loss:
    [path[i:]] is the skipped ["/"], if any, then the element, then
    [path[next:]]; and before the end of the path the returned index is
    beyond [i], so that splitting again from it comes to an end. *)
Theorem splitPath_rebuilds path i elem next :
  0 ≤ i ≤ len path →
  splitPath path i = Some (elem, next) →
  ∃ rest,
    slice_from path next = Some rest ∧
    slice_from path i =
      Some ((if bool_decide (byte_at path i = Some "/"%char)
             then "/" else EmptyString) +:+ elem +:+ rest) ∧
    next ≤ len path ∧ (i < len path → i < next).
Proof.
  intros Hi Hsplit.
  pose proof (element_start_bounds path i Hi) as Hs.
  rewrite splitPath_unfold in Hsplit by done. simpl in Hsplit.
  unfold slice_from. rewrite (bool_decide_true (0 ≤ i ≤ len path)) by done.
  assert (sdrop (Z.to_nat i) path =
            (if bool_decide (byte_at path i = Some "/"%char)
             then "/" else EmptyString)
            +:+ sdrop (Z.to_nat (element_start path i)) path) as Hskip.
  { unfold element_start. case_bool_decide as Hb; [|done].
    unfold byte_at in Hb. rewrite bool_decide_true in Hb by lia.
    rewrite (sdrop_S_get _ _ _ Hb).
    by replace (Z.to_nat (i + 1)) with (S (Z.to_nat i)) by lia. }
  rewrite Hskip. clear Hskip.
  set (st := element_start path i) in *.
  set (rest := sdrop (Z.to_nat st) path) in *.
  destruct (index_nat rest "/") as [n|] eqn:Hn; injection Hsplit as <- <-.
  - pose proof (index_nat_slash_Some _ _ Hn) as (Hlt & _ & Hget).
    unfold rest in Hlt. rewrite length_sdrop in Hlt.
    rewrite bool_decide_true by (unfold len; lia).
    exists (sdrop n rest). split_and!.
    + f_equal. unfold rest. rewrite sdrop_sdrop. f_equal. lia.
    + by rewrite stake_sdrop_app.
    + unfold len. lia.
    + intros Hlti. unfold st, element_start in *.
      case_bool_decide as Hb; [lia|].
      destruct n as [|n]; [|lia]. exfalso. apply Hb.
      unfold rest in Hget. rewrite get_sdrop, Nat.add_0_r in Hget.
      unfold byte_at. by rewrite bool_decide_true by lia.
  - rewrite bool_decide_true by lia.
    exists EmptyString. split_and!.
    + f_equal. apply sdrop_all. unfold len. lia.
    + by rewrite app_empty_r.
    + done.
    + done.
Qed.

(** ** Handler keys *)

Lemma stake_S_nonempty n s :
  s ≠ EmptyString → stake (S n) s ≠ EmptyString.
Proof. by destruct s. Qed.

(** X3: [handlerKey] never panics.  The rest it returns is empty or
    starts with the ["/"] that ends the key, followed by more path; in
    that case the key and what follows that ["/"] make up the path as
    trimmed of its leading ["/"], so nothing of the path is lost.  An
    empty key comes with an empty rest. *)
Theorem handlerKey_overlap path :
  ∃ key rest,
    handlerKey path = Some (key, rest) ∧
    (key = EmptyString → rest = EmptyString) ∧
    (rest = EmptyString ∨
     ∃ r, rest = String "/" r ∧ r ≠ EmptyString ∧
          key +:+ r = TrimPrefix path "/").
Proof.
  unfold handlerKey. set (p := TrimPrefix path "/").
  pose proof (len_nonneg p) as Hp.
  pose proof (element_start_bounds p 0) as Hst.
  rewrite splitPath_unfold by lia. simpl.
  set (st := element_start p 0) in *.
  set (rest0 := sdrop (Z.to_nat st) p).
  destruct (index_nat rest0 "/") as [n|] eqn:Hn; simpl.
  - case_bool_decide;
      [exists EmptyString, EmptyString; split_and!; auto|].
    case_bool_decide as Hlt;
      [|exists (stake n rest0), EmptyString; split_and!; auto].
    apply index_nat_slash_Some in Hn as (_ & _ & Hget).
    unfold rest0 in Hget. rewrite get_sdrop in Hget.
    unfold slice, slice_from. rewrite !bool_decide_true by lia. simpl.
    replace (Z.to_nat (Z.of_nat n + st + 1 - 0))
      with (S (Z.to_nat st + n)) by lia.
    replace (Z.to_nat (Z.of_nat n + st)) with (Z.to_nat st + n)%nat by lia.
    assert (p ≠ EmptyString) as Hpne.
    { intros Hnil. rewrite Hnil in Hget. by destruct (Z.to_nat st + n)%nat. }
    eexists _, _. split; [done|]. split.
    + intros Hk. by apply stake_S_nonempty in Hk.
    + right. exists (sdrop (S (Z.to_nat st + n)) p). split_and!.
      * by apply sdrop_S_get.
      * intros Hnil. apply (f_equal String.length) in Hnil.
        rewrite length_sdrop in Hnil. unfold len in Hlt. simpl in Hnil. lia.
      * apply stake_sdrop_app.
  - case_bool_decide;
      [exists EmptyString, EmptyString; split_and!; auto|].
    rewrite bool_decide_false by lia.
    exists rest0, EmptyString. split_and!; auto.
Qed.

(** ** Identifier paths *)

(** Where [splitPath] stops: at the end of the path or at a ["/"]. *)
Lemma splitPath_stop path i elem next :
  0 ≤ i ≤ len path →
  splitPath path i = Some (elem, next) →
  i ≤ next ≤ len path ∧
  (next = len path ∨ byte_at path next = Some "/"%char).
Proof.
  intros Hi Hsplit.
  pose proof (element_start_bounds path i Hi) as Hs.
  rewrite splitPath_unfold in Hsplit by done. simpl in Hsplit.
  set (st := element_start path i) in *.
  destruct (index_nat (sdrop (Z.to_nat st) path) "/") as [n|] eqn:Hn;
    injection Hsplit as <- <-; [|lia].
  apply index_nat_slash_Some in Hn as (Hlt & _ & Hget).
  rewrite length_sdrop in Hlt. rewrite get_sdrop in Hget.
  split; [unfold len; lia|]. right.
  unfold byte_at. rewrite bool_decide_true by lia.
  by replace (Z.to_nat (Z.of_nat n + st)) with (Z.to_nat st + n)%nat by lia.
Qed.

(** One optional step of [splitId] over an element. *)
Lemma splitId_step p (skip : bool) part i :
  0 ≤ i ≤ len p →
  (i = len p ∨ byte_at p i = Some "/"%char) →
  ∃ part' i',
    (if skip then splitPath p i else Some (part, i)) = Some (part', i') ∧
    0 ≤ i' ≤ len p ∧ (i' = len p ∨ byte_at p i' = Some "/"%char).
Proof.
  intros Hi Hb. destruct skip; [|by eauto 10].
  destruct (splitPath_returns p i Hi) as (part' & i' & Hs & _).
  pose proof (splitPath_stop p i part' i' Hi Hs) as [? ?].
  exists part', i'. split_and!; [done|lia|lia|done].
Qed.

Section IdFacts.

Context {T : Types} {C : Collaborators}.

(** [splitId] returns, with the identifier string and the rest it has
    cut the path into. *)
Lemma splitId_parts path :
  ∃ idstr rest,
    TrimPrefix path "/" = idstr +:+ rest ∧
    (rest = EmptyString ∨ ∃ r, rest = String "/" r) ∧
    splitId path =
      Some (match parseURL (TrimSuffix idstr "/") with
            | (url, None) => (url, rest, None)
            | (_, Some e) => (None, EmptyString, Some e)
            end).
Proof.
  unfold splitId. set (p := TrimPrefix path "/").
  pose proof (len_nonneg p) as Hp.
  destruct (splitPath_returns p 0) as (part1 & i1 & Hs1 & _); [lia|].
  pose proof (splitPath_stop p 0 part1 i1 ltac:(lia) Hs1) as [Hi1 Hb1].
  rewrite Hs1. cbn [mbind option_bind].
  destruct (splitId_step p (HasPrefix part1 "~") part1 i1)
    as (part2 & i2 & -> & Hi2 & Hb2); [lia|done|].
  cbn [mbind option_bind].
  destruct (splitId_step p (bool_decide (part2 ∈ knownSeries)) part2 i2)
    as (part & i & -> & Hi & Hb); [lia|done|].
  cbn [mbind option_bind].
  exists (stake (Z.to_nat i) p), (sdrop (Z.to_nat i) p). split_and!.
  - by rewrite stake_sdrop_app.
  - destruct Hb as [->|Hb].
    + left. apply sdrop_all. unfold len. lia.
    + right. unfold byte_at in Hb. rewrite bool_decide_true in Hb by lia.
      rewrite (sdrop_S_get _ _ _ Hb). eauto.
  - unfold slice. rewrite bool_decide_true by lia.
    cbn [mbind option_bind]. rewrite Z.sub_0_r.
    change (sdrop (Z.to_nat 0) p) with p.
    destruct (parseURL (TrimSuffix (stake (Z.to_nat i) p) "/"))
      as [url [e|]]; [done|].
    unfold slice_from. by rewrite bool_decide_true by lia.
Qed.

(** X5: [splitId] never panics.  It cuts the path, trimmed of its
    leading ["/"], into the identifier string, which it hands to
    [parseURL] without a trailing ["/"], and a rest that is empty or
    starts with ["/"]; when the identifier does not parse it returns
    the error and no rest. *)
Theorem splitId_cut path :
  ∃ idstr rest,
    TrimPrefix path "/" = idstr +:+ rest ∧
    (rest = EmptyString ∨ ∃ r, rest = String "/" r) ∧
    splitId path =
      Some (match parseURL (TrimSuffix idstr "/") with
            | (url, None) => (url, rest, None)
            | (_, Some e) => (None, EmptyString, Some e)
            end).
Proof. apply splitId_parts. Qed.

(** X7: [metaNames] lists the keys of the metadata handlers, each
    without one trailing ["/"], in ascending byte order: the result is
    sorted and is a rearrangement of the trimmed keys, one name for
    every key. *)
Theorem metaNames_sorted r :
  Sorted (λ a b, Is_true (String.leb a b)) (metaNames r) ∧
  metaNames r ≡ₚ
    (λ name, TrimSuffix name "/") <$> (map_to_list (Meta (handlers r))).*1 ∧
  length (metaNames r) = size (Meta (handlers r)).
Proof.
  unfold metaNames. split_and!.
  - apply Sorted_merge_sort. intros a b.
    destruct (String.leb_total a b) as [H|H]; [left|right]; by rewrite H.
  - apply merge_sort_Permutation.
  - rewrite merge_sort_Permutation, !length_fmap.
    by rewrite length_map_to_list.
Qed.

End IdFacts.

(** ** Outcomes of the metadata functions *)

Section OutcomeFacts.

Context {T : Types} {C : Collaborators}.

Implicit Types (r : Router) (req : Request) (ids : list string).

Lemma new_calls_app {A} (s : state) (o : outcome A) new :
  calls (final o) = calls s ++ new → new_calls s o = new.
Proof.
  intros Heq. unfold new_calls. rewrite Heq. by rewrite drop_app_length.
Qed.

(** The merge loop panics only on a result that is not null-equivalent
    and has no include name at its position. *)
Lemma merge_results_None (incs : list string) (rs : list value) :
  ∀ (res : gmap string value) (i : nat),
    merge_results incs res i rs = None →
    ∃ j v, rs !! j = Some v ∧ isNull v = false ∧ (length incs ≤ i + j)%nat.
Proof.
  induction rs as [|x rs IH]; intros res i; simpl; [done|].
  destruct (isNull x) eqn:Hx.
  - intros Hm. apply IH in Hm as (j & v & ? & ? & ?).
    exists (S j), v. split_and!; [done|done|lia].
  - destruct (incs !! i) as [inc|] eqn:Hl; simpl.
    + intros Hm. apply IH in Hm as (j & v & ? & ? & ?).
      exists (S j), v. split_and!; [done|done|lia].
    + intros _. apply lookup_ge_None in Hl.
      exists 0%nat, x. split_and!; [done|done|lia].
Qed.

Lemma merge_results_is_Some (incs : list string) (rs : list value) :
  ∀ (res : gmap string value) (i : nat),
    (i + length rs ≤ length incs)%nat →
    is_Some (merge_results incs res i rs).
Proof.
  intros res i Hlen.
  destruct (merge_results incs res i rs) as [m|] eqn:Hm; [by eauto|].
  apply merge_results_None in Hm as (j & v & Hj & _ & Hge).
  apply lookup_lt_Some in Hj. lia.
Qed.

Lemma handle_groups_written r id includes ibg gs :
  Forall (group_ok r includes ibg) gs →
  ∀ res s, written (final (handle_groups id ibg gs res s)) = written s.
Proof.
  induction 1 as [|[k g] gs Hok _ IH]; intros res s; [done|].
  destruct (handle_groups_cons r id includes ibg k g gs res s Hok)
    as (g0 & _ & _ & ->).
  cbv zeta.
  destruct (Handle g0 g id _ None (world s)) as [[rs [e|]] w]; simpl; [done|].
  destruct (merge_results _ res 0 rs) as [res'|]; [|done].
  by rewrite IH.
Qed.

(** The second loop panics only after a call that returned, without an
    error, a result that is not null-equivalent at a position beyond
    the handlers of the call. *)
Lemma handle_groups_panic r id includes ibg gs :
  Forall (group_ok r includes ibg) gs →
  ∀ res s s',
    handle_groups id ibg gs res s = Panic s' →
    ∃ c j v, last (calls s') = Some c ∧ (c_ret c).2 = None ∧
      length (c_hs c) = length (c_paths c) ∧
      (c_ret c).1 !! j = Some v ∧ isNull v = false ∧
      (length (c_hs c) ≤ j)%nat.
Proof.
  induction 1 as [|[k g] gs Hok _ IH]; intros res s s'; [done|].
  destruct (handle_groups_cons r id includes ibg k g gs res s Hok)
    as (g0 & _ & _ & ->).
  destruct Hok as (Hg & _ & Hlen & _). simpl in Hg, Hlen.
  cbv zeta.
  destruct (Handle g0 g id _ None (world s)) as [[rs [e|]] w]; simpl; [done|].
  destruct (merge_results _ res 0 rs) as [res'|] eqn:Hm; [by apply IH|].
  intros [= <-]. simpl. rewrite last_snoc.
  apply merge_results_None in Hm as (j & v & Hj & Hv & Hge).
  eexists _, j, v. split; [done|]. simpl.
  split_and!; [done| |done|done|]; rewrite <-Hg; [|lia].
  by rewrite length_fmap.
Qed.

Lemma handle_groups_returns r id includes ibg gs :
  one_result_each →
  Forall (group_ok r includes ibg) gs →
  ∀ res s, ∃ out s', handle_groups id ibg gs res s = Ret out s'.
Proof.
  intros Hone.
  induction 1 as [|[k g] gs Hok _ IH]; intros res s; [by eexists _, _|].
  destruct (handle_groups_cons r id includes ibg k g gs res s Hok)
    as (g0 & _ & _ & ->).
  destruct Hok as (Hg & _ & Hlen & _). simpl in Hg, Hlen.
  cbv zeta.
  pose proof (Hone g0 g id (include_path <$> group_members r k includes)
                None (world s)) as Hres.
  rewrite length_fmap in Hres. specialize (Hres Hlen).
  destruct (Handle g0 g id _ None (world s)) as [[rs [e|]] w]; simpl in *;
    [by eexists _, _|].
  destruct (merge_results_is_Some (group_members r k includes) rs res 0)
    as [res' ->]; [rewrite Hres; [lia|done]|].
  apply IH.
Qed.

(** What [GetMetadata] does to the state: it adds calls to the log, on
    pairwise distinct grouping keys, each for the given id, with nil
    flags and for the group of one of the include names, and writes
    nothing to the response. *)
Lemma GetMetadata_log r id includes s :
  ∃ new,
    calls (final (GetMetadata r id includes s)) = calls s ++ new ∧
    written (final (GetMetadata r id includes s)) = written s ∧
    NoDup (call_key <$> new) ∧
    ∀ c, c ∈ new →
      c_id c = id ∧ c_flags c = None ∧
      ∃ inc, inc ∈ includes ∧ group_key r inc = Some (call_key c).
Proof.
  destruct (GetMetadata_cases r id includes s)
    as [(b & i & a & _ & _ & _ & HG)|(ibg & gs & Hreg & Hok & Hnd & _ & HG)].
  - exists []. rewrite HG. simpl. rewrite app_nil_r.
    split_and!; [done|done|constructor|].
    intros c Hc. by apply not_elem_of_nil in Hc.
  - destruct (GetMetadata_grouped r id includes s ibg gs Hreg Hok Hnd HG)
      as (new & Hcalls & _ & Hnd' & Hc & _).
    exists new. split_and!; [done| |done|].
    { rewrite HG. by eapply handle_groups_written. }
    intros c Hin. destruct (Hc c Hin) as (ret & Hceq & _ & Hne).
    split_and!; [by rewrite Hceq|by rewrite Hceq|].
    destruct (group_members r (call_key c) includes) as [|inc l] eqn:Hmem;
      [done|].
    assert (inc ∈ group_members r (call_key c) includes) as Hinc
      by (rewrite Hmem; apply list_elem_of_here).
    apply list_elem_of_filter in Hinc as [? ?]. by exists inc.
Qed.

Lemma GetMetadata_shape r id includes s :
  match GetMetadata r id includes s with
  | Ret (Some _, None) _ | Ret (None, Some _) _ | Panic _ => True
  | Ret _ _ => False
  end.
Proof.
  destruct (GetMetadata_cases r id includes s)
    as [(b & i & a & _ & _ & _ & HG)|(ibg & gs & Hreg & Hok & Hnd & _ & HG)].
  - by rewrite HG.
  - destruct (GetMetadata_grouped r id includes s ibg gs Hreg Hok Hnd HG)
      as (new & _ & _ & _ & _ & Hm).
    by destruct (GetMetadata r id includes s) as [[[m|] [e|]] s'|s'].
Qed.

Lemma GetMetadata_no_panic r id includes s :
  one_result_each →
  ∃ out s', GetMetadata r id includes s = Ret out s'.
Proof.
  intros Hone.
  destruct (GetMetadata_cases r id includes s)
    as [(b & i & a & _ & _ & _ & HG)|(ibg & gs & Hreg & Hok & Hnd & _ & HG)].
  - rewrite HG. by eexists _, _.
  - rewrite HG. by eapply handle_groups_returns.
Qed.

(** X8: [GetMetadata] returns a mapping or an error, never both and
    never neither.  With a mapping, every include name was registered
    and no call failed.  An error is the one for an include name
    without handler, in which case the state is as before, or the error
    that the last call made has returned. *)
Theorem GetMetadata_outcomes r id includes s :
  match GetMetadata r id includes s with
  | Ret (Some m, None) s' =>
      all_registered r includes ∧
      calls_ok (new_calls s (GetMetadata r id includes s))
  | Ret (None, Some e) s' =>
      (∃ inc, inc ∈ includes ∧ include_handler r inc = None ∧
              e = Errorf_unrecognized inc ∧ s' = s) ∨
      (all_registered r includes ∧
       ∃ c, last (calls s') = Some c ∧
            c ∈ new_calls s (GetMetadata r id includes s) ∧
            (c_ret c).2 = Some e)
  | Ret _ _ => False
  | Panic _ => True
  end.
Proof.
  destruct (GetMetadata_cases r id includes s)
    as [(b & i & a & -> & _ & Hnone & HG)|(ibg & gs & Hreg & Hok & Hnd & _ & HG)].
  - rewrite HG. left. exists i. split_and!; try done.
    apply elem_of_app. right. apply list_elem_of_here.
  - destruct (GetMetadata_grouped r id includes s ibg gs Hreg Hok Hnd HG)
      as (new & Hcalls & _ & _ & _ & Hm).
    rewrite (new_calls_app _ _ _ Hcalls).
    destruct (GetMetadata r id includes s) as [[[m|] [e|]] s'|s'];
      try done.
    + by destruct Hm as (_ & ? & _).
    + right. split; [done|].
      destruct Hm as (new0 & c & -> & _ & He). simpl in Hcalls.
      exists c. split_and!; [|by apply elem_of_app; right; apply list_elem_of_here|done].
      by rewrite Hcalls, app_assoc, last_snoc.
Qed.

(** X9: for handlers whose keys are as the documentation of [Key]
    asks (comparable, equal to themselves and the same at every call,
    as [Collaborators] describes them) and whose [Handle] keeps to its
    documentation (an error, or one result for each handler),
    [GetMetadata] never panics: it returns.  For such keys a panic of
    [GetMetadata] can only follow a call to [Handle] that returned,
    without an error, a result that is not null-equivalent at a position
    beyond the handlers it was given. *)
Theorem GetMetadata_returns r id includes s :
  (one_result_each → ∃ out s', GetMetadata r id includes s = Ret out s') ∧
  ∀ s',
    GetMetadata r id includes s = Panic s' →
    ∃ c j v, last (calls s') = Some c ∧ (c_ret c).2 = None ∧
      length (c_hs c) = length (c_paths c) ∧
      (c_ret c).1 !! j = Some v ∧ isNull v = false ∧
      (length (c_hs c) ≤ j)%nat.
Proof.
  split; [by apply GetMetadata_no_panic|].
  intros s' Hpanic.
  destruct (GetMetadata_cases r id includes s)
    as [(b & i & a & _ & _ & _ & HG)|(ibg & gs & Hreg & Hok & Hnd & _ & HG)];
    [congruence|].
  rewrite HG in Hpanic.
  by apply (handle_groups_panic r id includes ibg gs Hok ∅ s).
Qed.

(** X10: [GetMetadata] only adds to the log of calls and writes nothing
    to the response; it makes at most as many calls to [Handle] as
    there are include names, each of them for the id it was given. *)
Theorem GetMetadata_calls_bounded r id includes s :
  let o := GetMetadata r id includes s in
  calls (final o) = calls s ++ new_calls s o ∧
  written (final o) = written s ∧
  (length (new_calls s o) ≤ length includes)%nat ∧
  Forall (λ c, c_id c = id) (new_calls s o).
Proof.
  intros o. unfold o.
  destruct (GetMetadata_log r id includes s) as (new & Hcalls & Hw & Hnd & Hc).
  rewrite (new_calls_app _ _ _ Hcalls). split_and!; [done|done| |].
  - assert (Some <$> (call_key <$> new) ⊆+ group_key r <$> includes) as Hsub.
    { apply NoDup_submseteq.
      - apply (NoDup_fmap_2 _), Hnd.
      - intros x (k & -> & (c & -> & Hin)%list_elem_of_fmap)%list_elem_of_fmap.
        destruct (Hc c Hin) as (_ & _ & inc & Hinc & <-).
        by apply list_elem_of_fmap_2. }
    apply submseteq_length in Hsub. by rewrite !length_fmap in Hsub.
  - apply Forall_forall. intros c Hin. by destruct (Hc c Hin).
Qed.

(** X11: without include names [GetMetadata] returns the empty mapping
    (not the nil one) and leaves the state as it was: no handler is
    called. *)
Theorem GetMetadata_no_includes r id s :
  GetMetadata r id [] s = Ret (Some ∅, None) s.
Proof.
  unfold GetMetadata, mbind, M_bind, lift_opt, range. simpl.
  rewrite map_to_list_empty.
  pose proof (range_groups_perm [] (world s)) as Hperm.
  apply Permutation_nil_r in Hperm. by rewrite Hperm.
Qed.

End OutcomeFacts.

(** ** Outcomes of the endpoints *)

Section EndpointFacts.

Context {T : Types} {C : Collaborators}.

Implicit Types (r : Router) (req : Request) (ids : list string).

Lemma parseURL_shape urlStr :
  match parseURL urlStr with
  | (Some _, None) | (None, Some _) => True
  | _ => False
  end.
Proof.
  unfold parseURL. by destruct (ParseReference urlStr) as [[ref series] [e|]].
Qed.

Lemma serveMeta_shape r id req s :
  match serveMeta r id req s with
  | Ret (v, None) _ => non_null v
  | Ret (v, Some _) _ => v = None
  | Panic _ => True
  end.
Proof.
  destruct (handlerKey_total (URL_Path req)) as (key & path & Hk).
  unfold serveMeta, mbind, M_bind, lift_opt. rewrite Hk. simpl.
  case_bool_decide; [done|]. case_bool_decide.
  - pose proof (GetMetadata_shape r id (values_get (Form req) "include") s).
    destruct (GetMetadata r id _ s) as [[[m|] [e|]] s'|s']; simpl; done.
  - destruct (meta_handler r key) as [h|]; [|done].
    unfold call_Handle.
    destruct (Handle h [h] id [path] (Form req) (world s)) as [[rs [e|]] w];
      simpl; [done|].
    destruct (rs !! 0%nat) as [x|]; simpl; [|done].
    by destruct (isNull x) eqn:Hx.
Qed.

(** What [serveMeta] does to the state: it adds calls to the log, each
    for the given id and with nil flags or the form of the request, and
    writes nothing to the response. *)
Lemma serveMeta_log r id req s :
  ∃ new,
    calls (final (serveMeta r id req s)) = calls s ++ new ∧
    written (final (serveMeta r id req s)) = written s ∧
    ∀ c, c ∈ new →
      c_id c = id ∧ (c_flags c = None ∨ c_flags c = Form req).
Proof.
  destruct (handlerKey_total (URL_Path req)) as (key & path & Hk).
  unfold serveMeta, mbind, M_bind, lift_opt. rewrite Hk. simpl.
  assert (∀ s0 : state, ∃ new : list HandleCall,
            calls s0 = calls s0 ++ new ∧ written s0 = written s0 ∧
            ∀ c, c ∈ new →
              c_id c = id ∧ (c_flags c = None ∨ c_flags c = Form req))
    as Hnil.
  { intros s0. exists []. rewrite app_nil_r. split_and!; [done|done|].
    intros c Hc. by apply not_elem_of_nil in Hc. }
  case_bool_decide; [apply Hnil|]. case_bool_decide.
  - destruct (GetMetadata_log r id (values_get (Form req) "include") s)
      as (new & Hcalls & Hw & _ & Hc).
    exists new.
    destruct (GetMetadata r id _ s) as [[m [e|]] s'|s']; simpl in *;
      (split_and!; [done|done|]);
      intros c Hin; destruct (Hc c Hin) as (? & ? & _); auto.
  - destruct (meta_handler r key) as [h|]; [|apply Hnil].
    unfold call_Handle.
    destruct (Handle h [h] id [path] (Form req) (world s)) as [[rs [e|]] w];
      simpl.
    + eexists [_]. split_and!; [done|done|].
      intros c ->%list_elem_of_singleton. simpl. auto.
    + eexists [_].
      destruct (rs !! 0%nat) as [x|]; simpl;
        [destruct (isNull x)|]; simpl;
        (split_and!; [done|done|]);
        intros c ->%list_elem_of_singleton; simpl; auto.
Qed.

Lemma serveMeta_no_panic r id req s :
  one_result_each →
  ∃ out s', serveMeta r id req s = Ret out s'.
Proof.
  intros Hone.
  destruct (handlerKey_total (URL_Path req)) as (key & path & Hk).
  unfold serveMeta, mbind, M_bind, lift_opt. rewrite Hk. simpl.
  case_bool_decide; [by eexists _, _|]. case_bool_decide.
  - destruct (GetMetadata_no_panic r id (values_get (Form req) "include") s
                Hone) as ([m [e|]] & s' & ->); by eexists _, _.
  - destruct (meta_handler r key) as [h|]; [|by eexists _, _].
    unfold call_Handle.
    pose proof (Hone h [h] id [path] (Form req) (world s) eq_refl) as Hres.
    destruct (Handle h [h] id [path] (Form req) (world s)) as [[rs [e|]] w];
      simpl in *; [by eexists _, _|].
    destruct rs as [|x rs]; [by specialize (Hres eq_refl)|]. simpl.
    destruct (isNull x); by eexists _, _.
Qed.

(** X12: [serveMeta] never hands back a value that encodes to null
    together with a nil error: the value is the list of names, a
    response whose mapping is not nil, or a handler's result that is
    not null-equivalent.  With an error the value is nil.  Whatever
    happens, nothing is written to the response, and every call made is
    for the given id. *)
Theorem serveMeta_never_null r id req s :
  match serveMeta r id req s with
  | Ret (v, None) s' => non_null v ∧ written s' = written s
  | Ret (v, Some _) s' => v = None ∧ written s' = written s
  | Panic s' => written s' = written s
  end ∧
  Forall (λ c, c_id c = id) (new_calls s (serveMeta r id req s)).
Proof.
  pose proof (serveMeta_shape r id req s) as Hshape.
  destruct (serveMeta_log r id req s) as (new & Hcalls & Hw & Hc).
  rewrite (new_calls_app _ _ _ Hcalls). split.
  - by destruct (serveMeta r id req s) as [[v [e|]] s'|s'].
  - apply Forall_forall. intros c Hin. by destruct (Hc c Hin).
Qed.

(** The outcome of one identifier of a bulk request. *)
Lemma id_outcome_log r req id s :
  ∃ new,
    calls (id_outcome_of r req id s).2 = calls s ++ new ∧
    written (id_outcome_of r req id s).2 = written s ∧
    (∀ c, c ∈ new → c_flags c = None ∨ c_flags c = Form req) ∧
    (∀ meta, (id_outcome_of r req id s).1 = IdOk meta → non_null meta) ∧
    (one_result_each → (id_outcome_of r req id s).1 ≠ IdPanic).
Proof.
  assert (∀ s0 : state, ∃ new : list HandleCall,
            calls s0 = calls s0 ++ new ∧ written s0 = written s0 ∧
            ∀ c, c ∈ new → c_flags c = None ∨ c_flags c = Form req)
    as Hnil.
  { intros s0. exists []. rewrite app_nil_r. split_and!; [done|done|].
    intros c Hc. by apply not_elem_of_nil in Hc. }
  unfold id_outcome_of.
  pose proof (parseURL_shape id) as Hp.
  destruct (parseURL id) as [[url|] [e|]]; try done.
  2:{ destruct (Hnil s) as (new & ? & ? & ?). exists new. by split_and!. }
  unfold call_resolveURL.
  destruct (resolveURL r url (world s)) as [[url' [e|]] w].
  { exists []. rewrite app_nil_r.
    destruct e; simpl; (split_and!; [done|done| |done|done]);
      intros c Hc; by apply not_elem_of_nil in Hc. }
  set (s1 := {| world := w; calls := calls s; written := written s |}).
  pose proof (serveMeta_shape r url' req s1) as Hshape.
  destruct (serveMeta_log r url' req s1) as (new & Hcalls & Hw & Hc).
  exists new.
  assert (one_result_each → ∃ out s', serveMeta r url' req s1 = Ret out s')
    as Hret by (intros Hone; by apply serveMeta_no_panic).
  destruct (serveMeta r url' req s1) as [[v [e|]] s2|s2]; simpl in *.
  - destruct e; simpl;
      (split_and!; [done|done|intros c Hin; by destruct (Hc c Hin)|done|done]).
  - split_and!; [done|done|intros c Hin; by destruct (Hc c Hin)| |done].
    by intros meta [= <-].
  - split_and!; [done|done|intros c Hin; by destruct (Hc c Hin)|done|].
    intros Hone. by destruct (Hret Hone) as (? & ? & ?).
Qed.

Lemma bulk_loop_log r req ids :
  ∀ res s,
    map_Forall (λ _ v, non_null v) res →
    ∃ new,
      calls (final (bulk_loop r req ids res s)) = calls s ++ new ∧
      written (final (bulk_loop r req ids res s)) = written s ∧
      (∀ c, c ∈ new → c_flags c = None ∨ c_flags c = Form req) ∧
      match bulk_loop r req ids res s with
      | Ret (Some m, None) _ => map_Forall (λ _ v, non_null v) m
      | Ret (None, Some _) _ => True
      | Ret _ _ => False
      | Panic _ => ¬ one_result_each
      end.
Proof.
  induction ids as [|id ids IH]; intros res s Hres; simpl.
  - exists []. rewrite app_nil_r. split_and!; [done|done| |done].
    intros c Hc. by apply not_elem_of_nil in Hc.
  - unfold mbind, M_bind.
    pose proof (bulk_body_outcome r req id res s) as Hbody.
    destruct (id_outcome_log r req id s) as (new1 & Hc1 & Hw1 & Hf1 & Hok & Hnp).
    destruct (id_outcome_of r req id s) as [o s1]. simpl in *.
    assert (∀ res', map_Forall (λ _ v, non_null v) res' →
              ∃ new,
                calls (final (bulk_loop r req ids res' s1)) = calls s ++ new ∧
                written (final (bulk_loop r req ids res' s1)) = written s ∧
                (∀ c, c ∈ new → c_flags c = None ∨ c_flags c = Form req) ∧
                match bulk_loop r req ids res' s1 with
                | Ret (Some m, None) _ => map_Forall (λ _ v, non_null v) m
                | Ret (None, Some _) _ => True
                | Ret _ _ => False
                | Panic _ => ¬ one_result_each
                end) as Hnext.
    { intros res' Hres'.
      destruct (IH res' s1 Hres') as (new2 & Hc2 & Hw2 & Hf2 & Hm).
      exists (new1 ++ new2). split_and!.
      - by rewrite Hc2, Hc1, app_assoc.
      - by rewrite Hw2.
      - intros c [?|?]%elem_of_app; auto.
      - done. }
    destruct o as [| |e| |meta]; rewrite Hbody; simpl.
    + by apply Hnext.
    + by apply Hnext.
    + exists new1. by split_and!.
    + exists new1. split_and!; [done|done|done|]. intros Hone. by apply Hnp.
    + apply Hnext. apply map_Forall_insert_2; [by apply Hok|done].
Qed.

(** X13: [serveBulkMeta] returns a mapping or an error, never both and
    never neither; every entry of the mapping is a value that does not
    encode to null; and the function itself writes nothing to the
    response, whatever happens. *)
Theorem serveBulkMeta_entries r req s :
  match serveBulkMeta r req s with
  | Ret (Some m, None) s' =>
      map_Forall (λ _ v, non_null v) m ∧ written s' = written s
  | Ret (None, Some _) s' => written s' = written s
  | Ret _ _ => False
  | Panic s' => written s' = written s
  end.
Proof.
  unfold serveBulkMeta. case_bool_decide; [done|].
  set (req' := {| URL_Path := URL_Path req;
                  Form := values_delete (Form req) "id";
                  ParseForm_err := ParseForm_err req |}).
  destruct (bulk_loop_log r req' (values_get (Form req) "id") ∅ s)
    as (new & _ & Hw & _ & Hm); [apply map_Forall_empty|].
  by destruct (bulk_loop r req' _ ∅ s) as [[[m|] [e|]] s'|s'].
Qed.

Lemma values_get_delete (f : Values) k : values_get (values_delete f k) k = [].
Proof. destruct f as [m|]; [|done]. simpl. by rewrite lookup_delete_eq. Qed.

(** X14: the handlers called for a bulk request never see the [id]
    values of the query: the flags of every call are nil or the form
    with [id] deleted. *)
Theorem serveBulkMeta_flags r req s :
  Forall (λ c, values_get (c_flags c) "id" = [] ∧
               (c_flags c = None ∨
                c_flags c = values_delete (Form req) "id"))
    (new_calls s (serveBulkMeta r req s)).
Proof.
  unfold serveBulkMeta. case_bool_decide.
  { unfold new_calls. simpl. by rewrite drop_all. }
  set (req' := {| URL_Path := URL_Path req;
                  Form := values_delete (Form req) "id";
                  ParseForm_err := ParseForm_err req |}).
  destruct (bulk_loop_log r req' (values_get (Form req) "id") ∅ s)
    as (new & Hcalls & _ & Hf & _); [apply map_Forall_empty|].
  rewrite (new_calls_app _ _ _ Hcalls).
  apply Forall_forall. intros c Hin.
  destruct (Hf c Hin) as [Hc|Hc]; rewrite Hc; simpl.
  - split; [done|by left].
  - split; [apply values_get_delete|by right].
Qed.

End EndpointFacts.

(** ** Requests rooted at an id *)

Section ServeIdsFacts.

Context {T : Types} {C : Collaborators}.

Implicit Types (r : Router) (req : Request).

(** What [serveIds] does to the state and when it panics. *)
Lemma serveIds_log r req s :
  ∃ new,
    calls (final (serveIds r req s)) = calls s ++ new ∧
    (∀ c, c ∈ new →
       ∃ url rest url' w,
         splitId (TrimSuffix (URL_Path req) "/") = Some (Some url, rest, None) ∧
         resolveURL r url (world s) = ((url', None), w) ∧
         c_id c = url' ∧ (c_flags c = None ∨ c_flags c = Form req)) ∧
    match serveIds r req s with
    | Ret err s' =>
        match id_handler_of r req s with
        | Some _ => written s' = written s ∧ new = []
        | None =>
            match err with
            | None =>
                ∃ v, non_null v ∧ written s' = written s ++ [(StatusOK, v)]
            | Some _ => written s' = written s
            end
        end
    | Panic s' =>
        written s' = written s ∧ ¬ (one_result_each ∧ no_nil_IdHandler r) ∧
        (is_Some (id_handler_of r req s) → new = [])
    end.
Proof.
  assert (∀ P : HandleCall → Prop, ∀ c, c ∈ @nil HandleCall → P c) as Hnil.
  { intros P c Hc. by apply not_elem_of_nil in Hc. }
  unfold serveIds, id_handler_of, mbind, M_bind, lift_opt.
  destruct (ParseForm_err req) as [e|] eqn:Hform.
  { exists []. simpl. rewrite app_nil_r. split_and!; [done|apply Hnil|done]. }
  destruct (splitId_parts (TrimSuffix (URL_Path req) "/"))
    as (idstr & rest & _ & _ & Hsplit).
  rewrite Hsplit.
  pose proof (parseURL_shape (TrimSuffix idstr "/")) as Hp.
  destruct (parseURL (TrimSuffix idstr "/")) as [[url|] [e|]]; try done;
    simpl.
  2:{ exists []. rewrite app_nil_r. split_and!; [done|apply Hnil|done]. }
  unfold call_resolveURL.
  destruct (resolveURL r url (world s)) as [[url' [e|]] w] eqn:Hres; simpl.
  { exists []. rewrite app_nil_r. split_and!; [done|apply Hnil|done]. }
  destruct (handlerKey_total rest) as (key & path & ->). simpl.
  case_bool_decide.
  { exists []. simpl. rewrite app_nil_r. split_and!; [done|apply Hnil|done]. }
  destruct (Id (handlers r) !! key) as [[h|]|] eqn:HId; simpl.
  - unfold call_IdHandler. simpl.
    match goal with
    | |- context [IdHandle h url' ?q w] =>
        destruct (IdHandle h url' q w) as [err w']
    end; simpl.
    exists []. rewrite app_nil_r. by split_and!; [|apply Hnil|..].
  - exists []. rewrite app_nil_r. split_and!; [done|apply Hnil|done| |done].
    intros [_ Hno]. by apply (Hno key).
  - destruct (bool_decide (key ≠ "meta/") && bool_decide (key ≠ "meta")).
    { exists []. simpl. rewrite app_nil_r.
      split_and!; [done|apply Hnil|done]. }
    set (s1 := {| world := w; calls := calls s; written := written s |}).
    set (req' := {| URL_Path := path; Form := Form req;
                    ParseForm_err := None |}).
    pose proof (serveMeta_shape r url' req' s1) as Hshape.
    destruct (serveMeta_log r url' req' s1) as (new & Hcalls & Hw & Hc).
    assert (one_result_each → ∃ out s', serveMeta r url' req' s1 = Ret out s')
      as Hret by (intros Hone; by apply serveMeta_no_panic).
    exists new.
    assert (∀ c, c ∈ new →
              ∃ url0 rest0 url'0 w0,
                Some (Some url, rest, @None error) =
                  Some (Some url0, rest0, None) ∧
                resolveURL r url0 (world s) = (url'0, None, w0) ∧
                c_id c = url'0 ∧ (c_flags c = None ∨ c_flags c = Form req))
      as Hc'.
    { intros c Hin. destruct (Hc c Hin) as [? ?]. by exists url, rest, url', w. }
    destruct (serveMeta r url' req' s1) as [[v [e|]] s2|s2]; simpl in *.
    + by split_and!.
    + split_and!; [done|done|]. exists v. by rewrite Hw.
    + split_and!; [done|done|done| |by intros [? ?]].
      intros [Hone _]. by destruct (Hret Hone) as (? & ? & ?).
Qed.

(** X15: [serveIds] writes a JSON body only when it returns no error
    for a request that is not dispatched to an entry of [Handlers.Id]:
    then it has written one body, with the status 200 and a value that
    does not encode to null.  When it returns an error or panics it has
    written nothing.  And when the request is dispatched to an entry of
    [Handlers.Id], whatever the handler returns, the router itself has
    written nothing and has called no metadata handler. *)
Theorem serveIds_written r req s :
  match serveIds r req s with
  | Ret err s' =>
      match id_handler_of r req s with
      | Some _ => written s' = written s ∧ calls s' = calls s
      | None =>
          match err with
          | None =>
              ∃ v, non_null v ∧ written s' = written s ++ [(StatusOK, v)]
          | Some _ => written s' = written s
          end
      end
  | Panic s' =>
      written s' = written s ∧
      (is_Some (id_handler_of r req s) → calls s' = calls s)
  end.
Proof.
  destruct (serveIds_log r req s) as (new & Hcalls & _ & Hm).
  destruct (serveIds r req s) as [err s'|s']; simpl in *.
  - destruct (id_handler_of r req s) as [h|]; [|done].
    destruct Hm as [? ->]. by rewrite Hcalls, app_nil_r.
  - destruct Hm as (Hw & _ & Hnew). split; [done|].
    intros Hsome. by rewrite Hcalls, (Hnew Hsome), app_nil_r.
Qed.

(** X16: every metadata handler called for a request rooted at an id
    is given the URL as [resolveURL] has filled it in, not the URL as
    parsed from the path, and flags that are nil or the form of the
    request. *)
Theorem serveIds_resolved_id r req s :
  Forall (λ c,
    ∃ url rest url' w,
      splitId (TrimSuffix (URL_Path req) "/") = Some (Some url, rest, None) ∧
      resolveURL r url (world s) = ((url', None), w) ∧
      c_id c = url' ∧ (c_flags c = None ∨ c_flags c = Form req))
    (new_calls s (serveIds r req s)).
Proof.
  destruct (serveIds_log r req s) as (new & Hcalls & Hc & _).
  rewrite (new_calls_app _ _ _ Hcalls). by apply Forall_forall.
Qed.



Lemma TrimSuffix_slash_app p : TrimSuffix (p +:+ "/") "/" = p.
Proof.
  unfold TrimSuffix, HasSuffix.
  assert (String.length (p +:+ "/") = S (String.length p)) as Hlen.
  { pose proof (len_app p "/") as Hl. unfold len in Hl. simpl in Hl. lia. }
  rewrite Hlen. simpl String.length.
  replace (S (String.length p) - 1)%nat with (String.length p) by lia.
  by rewrite sdrop_app_length, stake_app_length.
Qed.

(** X19: [serveIds] ignores one trailing ["/"] of the request path: a
    path that does not end in ["/"] is served in the same way with a
    ["/"] added to it. *)
Theorem serveIds_trailing_slash r p form perr s :
  HasSuffix p "/" = false →
  serveIds r {| URL_Path := p +:+ "/"; Form := form; ParseForm_err := perr |} s
  = serveIds r {| URL_Path := p; Form := form; ParseForm_err := perr |} s.
Proof.
  intros Hp. unfold serveIds. simpl.
  rewrite TrimSuffix_slash_app.
  unfold TrimSuffix. by rewrite Hp.
Qed.

End ServeIdsFacts.

(** ** The elements of an identifier path *)

Lemma app_assoc_str s1 s2 s3 : (s1 +:+ s2) +:+ s3 = s1 +:+ (s2 +:+ s3).
Proof. induction s1 as [|c s1 IH]; [done|]. by rewrite !app_cons, IH. Qed.

Lemma app_empty_l s : EmptyString +:+ s = s.
Proof. done. Qed.

Lemma len_cons c s : len (String c s) = 1 + len s.
Proof. unfold len. simpl String.length. lia. Qed.

Lemma get_app_length s1 c s2 :
  String.get (String.length s1) (s1 +:+ String c s2) = Some c.
Proof. induction s1 as [|a s1 IH]; [done|]. by rewrite app_cons. Qed.

Lemma sdrop_app_length_S s1 c s2 :
  sdrop (S (String.length s1)) (s1 +:+ String c s2) = s2.
Proof.
  pose proof (sdrop_S_get _ _ _ (get_app_length s1 c s2)) as Hd.
  rewrite sdrop_app_length in Hd. by injection Hd.
Qed.

Ltac str_norm :=
  repeat (rewrite app_assoc_str || rewrite app_cons || rewrite app_empty_l).

Ltac len_norm :=
  repeat (rewrite len_app || rewrite len_cons);
  change (len EmptyString) with 0.

(** The element that starts a string which goes on with nothing or
    with a ["/"]. *)
Lemma element_of elem tail st total :
  no_slash elem = true →
  (tail = EmptyString ∨ ∃ r, tail = String "/" r) →
  total = st + len (elem +:+ tail) →
  match index_nat (elem +:+ tail) "/" with
  | None => (elem +:+ tail, total)
  | Some n => (stake n (elem +:+ tail), Z.of_nat n + st)
  end = (elem, st + len elem).
Proof.
  intros Hns [->|[r ->]] ->.
  - rewrite app_empty_r.
    by rewrite (proj2 (index_nat_slash_None elem)) by done.
  - rewrite index_nat_app_slash by done. rewrite stake_app_length.
    f_equal. unfold len. lia.
Qed.

(** [splitPath] from the start of a path that does not start with
    ["/"]. *)
Lemma splitPath_first elem tail :
  no_slash elem = true →
  HasPrefix (elem +:+ tail) "/" = false →
  (tail = EmptyString ∨ ∃ r, tail = String "/" r) →
  splitPath (elem +:+ tail) 0 = Some (elem, len elem).
Proof.
  intros Hns Hpre Htail.
  pose proof (len_nonneg (elem +:+ tail)) as Hlen.
  rewrite splitPath_unfold by lia.
  assert (element_start (elem +:+ tail) 0 = 0) as ->.
  { unfold element_start. rewrite bool_decide_false; [done|].
    unfold byte_at. rewrite bool_decide_true by lia.
    destruct (elem +:+ tail) as [|c q]; [done|].
    rewrite HasPrefix_slash in Hpre. simpl.
    intros [= ->]. done. }
  cbv zeta. change (sdrop (Z.to_nat 0) (elem +:+ tail)) with (elem +:+ tail).
  rewrite (element_of elem tail 0) by (done || lia).
  by rewrite Z.add_0_l.
Qed.

(** [splitPath] from the ["/"] that ends the elements read so far. *)
Lemma splitPath_element pre elem tail :
  no_slash elem = true →
  (tail = EmptyString ∨ ∃ r, tail = String "/" r) →
  splitPath (pre +:+ String "/" (elem +:+ tail)) (len pre) =
    Some (elem, len pre + 1 + len elem).
Proof.
  intros Hns Htail. set (p := pre +:+ String "/" (elem +:+ tail)).
  assert (len p = len pre + 1 + len (elem +:+ tail)) as Hlen
    by (unfold p; len_norm; lia).
  pose proof (len_nonneg pre). pose proof (len_nonneg (elem +:+ tail)).
  rewrite splitPath_unfold by lia.
  assert (element_start p (len pre) = len pre + 1) as ->.
  { unfold element_start. rewrite bool_decide_true; [done|].
    unfold byte_at. rewrite bool_decide_true by lia.
    replace (Z.to_nat (len pre)) with (String.length pre)
      by (unfold len; lia).
    apply get_app_length. }
  cbv zeta.
  replace (Z.to_nat (len pre + 1)) with (S (String.length pre))
    by (unfold len; lia).
  unfold p. rewrite sdrop_app_length_S.
  by rewrite (element_of elem tail (len pre + 1)) by (done || (fold p; lia)).
Qed.

Lemma slice_prefix s1 s2 : slice (s1 +:+ s2) 0 (len s1) = Some s1.
Proof.
  pose proof (len_nonneg s1). pose proof (len_nonneg s2).
  unfold slice. rewrite bool_decide_true by (rewrite len_app; lia).
  rewrite Z.sub_0_r.
  replace (Z.to_nat (len s1)) with (String.length s1) by (unfold len; lia).
  change (sdrop (Z.to_nat 0) (s1 +:+ s2)) with (s1 +:+ s2).
  by rewrite stake_app_length.
Qed.

Lemma slice_from_suffix s1 s2 : slice_from (s1 +:+ s2) (len s1) = Some s2.
Proof.
  pose proof (len_nonneg s1). pose proof (len_nonneg s2).
  unfold slice_from. rewrite bool_decide_true by (rewrite len_app; lia).
  replace (Z.to_nat (len s1)) with (String.length s1) by (unfold len; lia).
  by rewrite sdrop_app_length.
Qed.

Lemma knownSeries_plain s :
  s ∈ knownSeries → no_slash s = true ∧ HasPrefix s "~" = false ∧ s ≠ EmptyString.
Proof.
  unfold knownSeries. intros Hs.
  repeat (apply elem_of_cons in Hs as [->|Hs]; [by vm_compute|]).
  by apply not_elem_of_nil in Hs.
Qed.

Section IdElements.

Context {T : Types} {C : Collaborators}.

(** The end of [splitId], once the index [i] stands behind the
    identifier string. *)
Lemma splitId_finish ids rest i :
  i = len ids →
  (id ← slice (ids +:+ rest) 0 i;
   let urlStr := TrimSuffix id "/" in
   let '(url, err) := parseURL urlStr in
   match err with
   | Some e => Some (None, EmptyString, Some e)
   | None => rest' ← slice_from (ids +:+ rest) i; Some (url, rest', None)
   end) =
  Some (match parseURL (TrimSuffix ids "/") with
        | (url, None) => (url, rest, None)
        | (_, Some e) => (None, EmptyString, Some e)
        end).
Proof.
  intros ->. rewrite slice_prefix. cbn [mbind option_bind]. cbv zeta.
  destruct (parseURL (TrimSuffix ids "/")) as [url [e|]]; [done|].
  by rewrite slice_from_suffix.
Qed.

(** X6: [splitId] reads an identifier of up to three elements: a first
    element that starts with ["~"] is skipped as the user, an element
    that is a known series is skipped next, and the element after them
    is the name.  On a path made of such an identifier and a rest that
    is empty or starts with ["/"], the identifier is handed to
    [parseURL] (without a trailing ["/"]) and the rest is returned as it
    is. *)
Theorem splitId_elements path user series name rest :
  TrimPrefix path "/" = id_string user series name +:+ rest →
  (∀ u, user = Some u → no_slash u = true) →
  (∀ s, series = Some s → s ∈ knownSeries) →
  no_slash name = true →
  (user = None → series = None →
   name ≠ EmptyString ∧ HasPrefix name "~" = false) →
  (series = None → name ∉ knownSeries) →
  (rest = EmptyString ∨ ∃ r, rest = String "/" r) →
  splitId path =
    Some (match parseURL (TrimSuffix (id_string user series name) "/") with
          | (url, None) => (url, rest, None)
          | (_, Some e) => (None, EmptyString, Some e)
          end).
Proof.
  intros Hp Hu Hs Hname Hfirst Hnot Hrest.
  unfold splitId. rewrite Hp. clear Hp.
  rewrite <-(splitId_finish (id_string user series name) rest
               (len (id_string user series name))) by done.
  destruct user as [u|], series as [s|]; unfold id_string; simpl from_option.
  - specialize (Hu u eq_refl). specialize (Hs s eq_refl).
    destruct (knownSeries_plain s Hs) as (Hss & _ & _).
    set (U := String "~" u).
    assert (no_slash U = true) as HU by done.
    assert (("~" +:+ u +:+ "/") +:+ (s +:+ "/") +:+ name =
            (U +:+ String "/" s) +:+ String "/" name) as ->
      by (unfold U; str_norm; done).
    set (ids := (U +:+ String "/" s) +:+ String "/" name).
    set (p := ids +:+ rest).
    assert (splitPath p 0 = Some (U, len U)) as ->.
    { replace p with (U +:+ String "/" (s +:+ String "/" (name +:+ rest)))
        by (unfold p, ids; str_norm; done).
      apply splitPath_first; [done|done|by eauto]. }
    cbn [mbind option_bind].
    change (HasPrefix U "~") with true. cbv iota.
    assert (splitPath p (len U) = Some (s, len (U +:+ String "/" s))) as ->.
    { replace p with (U +:+ String "/" (s +:+ String "/" (name +:+ rest)))
        by (unfold p, ids; str_norm; done).
      rewrite splitPath_element by eauto. do 2 f_equal. len_norm. lia. }
    cbn [mbind option_bind].
    rewrite bool_decide_true by done.
    assert (splitPath p (len (U +:+ String "/" s)) = Some (name, len ids))
      as ->.
    { replace p with ((U +:+ String "/" s) +:+ String "/" (name +:+ rest))
        by (unfold p, ids; str_norm; done).
      rewrite splitPath_element by eauto. do 2 f_equal.
      unfold ids. len_norm. lia. }
    done.
  - specialize (Hu u eq_refl). specialize (Hnot eq_refl).
    set (U := String "~" u).
    assert (no_slash U = true) as HU by done.
    assert (("~" +:+ u +:+ "/") +:+ EmptyString +:+ name =
            U +:+ String "/" name) as ->
      by (unfold U; str_norm; done).
    set (ids := U +:+ String "/" name).
    set (p := ids +:+ rest).
    assert (splitPath p 0 = Some (U, len U)) as ->.
    { replace p with (U +:+ String "/" (name +:+ rest))
        by (unfold p, ids; str_norm; done).
      apply splitPath_first; [done|done|by eauto]. }
    cbn [mbind option_bind].
    change (HasPrefix U "~") with true. cbv iota.
    assert (splitPath p (len U) = Some (name, len ids)) as ->.
    { replace p with (U +:+ String "/" (name +:+ rest))
        by (unfold p, ids; str_norm; done).
      rewrite splitPath_element by eauto. do 2 f_equal.
      unfold ids. len_norm. lia. }
    cbn [mbind option_bind].
    by rewrite bool_decide_false by done.
  - specialize (Hs s eq_refl).
    destruct (knownSeries_plain s Hs) as (Hss & Hst & Hse).
    assert (EmptyString +:+ (s +:+ "/") +:+ name = s +:+ String "/" name)
      as -> by (str_norm; done).
    set (ids := s +:+ String "/" name).
    set (p := ids +:+ rest).
    assert (splitPath p 0 = Some (s, len s)) as ->.
    { replace p with (s +:+ String "/" (name +:+ rest))
        by (unfold p, ids; str_norm; done).
      apply splitPath_first; [done| |by eauto].
      destruct s as [|c s]; [done|]. rewrite app_cons, HasPrefix_slash.
      simpl in Hss. apply andb_true_iff in Hss as [Hc _].
      by apply negb_true_iff in Hc. }
    cbn [mbind option_bind]. rewrite Hst. cbn [mbind option_bind].
    rewrite bool_decide_true by done.
    assert (splitPath p (len s) = Some (name, len ids)) as ->.
    { replace p with (s +:+ String "/" (name +:+ rest))
        by (unfold p, ids; str_norm; done).
      rewrite splitPath_element by eauto. do 2 f_equal.
      unfold ids. len_norm. lia. }
    done.
  - destruct (Hfirst eq_refl eq_refl) as [Hne Hnt]. specialize (Hnot eq_refl).
    assert (EmptyString +:+ EmptyString +:+ name = name) as -> by done.
    set (p := name +:+ rest).
    assert (splitPath p 0 = Some (name, len name)) as ->.
    { apply splitPath_first; [done| |done].
      destruct name as [|c n]; [done|]. rewrite app_cons, HasPrefix_slash.
      simpl in Hname. apply andb_true_iff in Hname as [Hc _].
      by apply negb_true_iff in Hc. }
    cbn [mbind option_bind]. rewrite Hnt. cbn [mbind option_bind].
    by rewrite bool_decide_false by done.
Qed.

End IdElements.

(** ** Further runs of the small router *)

Section MoreToyRuns.

Import Toy.

#[local] Existing Instance toy_types.
#[local] Existing Instance toy_collaborators.

(** X2, on the example of the source: [splitPath("/foo/bar/bzr", 4)]
    returns [("bar", 8)]. *)
Lemma splitPath_rebuilds_witness :
  ∃ rest,
    slice_from "/foo/bar/bzr" 8 = Some rest ∧
    slice_from "/foo/bar/bzr" 4 =
      Some ((if bool_decide (byte_at "/foo/bar/bzr" 4 = Some "/"%char)
             then "/" else EmptyString) +:+ "bar" +:+ rest) ∧
    8 ≤ len "/foo/bar/bzr" ∧ (4 < len "/foo/bar/bzr" → 4 < 8).
Proof.
  apply (splitPath_rebuilds "/foo/bar/bzr" 4 "bar" 8); by vm_compute.
Defined.

(** X4, on the path of a facet with a sub-path. *)
Lemma handlerKey_first_element_witness :
  handlerKey "/related/provides" =
    Some (if bool_decide (2 ≤ len "/provides")
          then ("related" +:+ "/", "/provides")
          else ("related", EmptyString)).
Proof.
  apply (handlerKey_first_element "/related/provides" "related" "/provides").
  - by vm_compute.
  - done.
  - by vm_compute.
  - right. by eexists.
Defined.

(** X6, on a path with a user, a series, a name and a metadata path. *)
Lemma splitId_elements_witness :
  splitId "/~charmers/precise/wordpress-34/meta/any" =
    Some (match parseURL (TrimSuffix (id_string (Some "charmers")
                                        (Some "precise") "wordpress-34") "/")
          with
          | (url, None) => (url, "/meta/any", None)
          | (_, Some e) => (None, EmptyString, Some e)
          end).
Proof.
  apply (splitId_elements "/~charmers/precise/wordpress-34/meta/any"
           (Some "charmers") (Some "precise") "wordpress-34" "/meta/any").
  - by vm_compute.
  - intros u [= <-]. by vm_compute.
  - intros s [= <-]. apply list_elem_of_further, list_elem_of_here.
  - by vm_compute.
  - done.
  - done.
  - right. by eexists.
Defined.

(** X9, on the request for five facets. *)
Lemma GetMetadata_returns_witness :
  ∃ out s', toy_GetMetadata toy_includes toy_state = Ret out s'.
Proof.
  apply (proj1 (GetMetadata_returns toy_router toy_id toy_includes toy_state)).
  intros h hs id paths flags w Hlen. simpl. unfold toy_Handle.
  case_bool_decide; simpl; [done|]. intros _. by rewrite length_fmap.
Defined.



(** X19, on a request for one facet of an id. *)
Lemma serveIds_trailing_slash_witness :
  toy_serveIds {| URL_Path := "/wordpress/meta/size" +:+ "/";
                  Form := Some ∅; ParseForm_err := None |} toy_state =
  toy_serveIds {| URL_Path := "/wordpress/meta/size";
                  Form := Some ∅; ParseForm_err := None |} toy_state.
Proof.
  apply (serveIds_trailing_slash toy_router "/wordpress/meta/size" (Some ∅)
           None toy_state).
  by vm_compute.
Defined.

End MoreToyRuns.
